(** * reconchess: the turn protocol and the multiprocessing moderator

    A shallow embedding of [reconchess/play.py].  The module drives objects
    it does not define: a [Game] (the local, remote or queue-backed game)
    and two [Player]s.  They are kept abstract here, as type classes of
    state transformers, and every call the drivers make on them is written
    to a trace, so that the order of calls, their arguments and their
    answers can be stated and proved for every game and every player. *)

From stdpp Require Import base strings list gmap functions.
From Stdlib Require Import Lia.

Set Default Proof Using "Type".
Open Scope string_scope.
Open Scope list_scope.

(** ** Data

    [chess.Color] is [bool], with [chess.WHITE = True], and
    [chess.COLORS = [WHITE, BLACK]]. *)

Definition Color := bool.
Definition WHITE : Color := true.
Definition BLACK : Color := false.
Definition COLORS : list Color := [WHITE; BLACK].

(** The values the drivers only pass along.  [Seconds] is Python's float;
    nothing here computes with it.  [chess_Board] is [chess.Board()], the
    standard starting position. *)
Class Types := {
  Square : Type;
  Move : Type;
  SenseResult : Type;
  Seconds : Type;
  Board : Type;
  Name : Type;
  WinReason : Type;
  GameHistory : Type;
  chess_Board : Board
}.

(** The triple [game.move] returns:
    [(requested_move, taken_move, opt_enemy_capture_square)]. *)
Abbreviation MoveResult := (option Move * option Move * option Square)%type.

(** What the whole-game drivers return. *)
Abbreviation GameResult := (option Color * option WinReason * GameHistory)%type.

(** [x is not None] *)
Definition is_not_None {A} (x : option A) : bool :=
  match x with Some _ => true | None => false end.

(** ** The interfaces the drivers are written against

    A method of an object with state [G] that returns an [A] is a function
    [G -> A * G]; a method that returns nothing is [G -> G]; an attribute
    read is [G -> A].  The classes themselves are defined in other modules
    of the package; here their methods are any functions of these types,
    so a method always returns: what an implementation may raise is not
    modelled. *)

(** [reconchess.Game], the interface [play_turn] uses. *)
Class Game `{Types} (G : Type) := {
  sense_actions : G -> list Square * G;
  move_actions : G -> list Move * G;
  opponent_move_results : G -> option Square * G;
  sense : option Square -> G -> SenseResult * G;
  move : option Move -> G -> MoveResult * G;
  end_turn : G -> G;
  start : G -> G;
  is_over : G -> bool * G;
  get_seconds_left : G -> Seconds * G;
  get_winner_color : G -> option Color * G;
  get_win_reason : G -> option WinReason * G;
  get_game_history : G -> GameHistory * G
}.

(** [reconchess.LocalGame]: what [play_local_game] and the moderator use
    beyond [Game].  [LocalGame_new s] is [LocalGame(seconds_per_player=s)],
    [board_copy] is [game.board.copy()], [end_game] is [game.end()]. *)
Class LocalGame `{Types} (G : Type) `{!Game G} := {
  LocalGame_new : Seconds -> G;
  store_players : Name -> Name -> G -> G;
  board_copy : G -> Board;
  turn : G -> Color;
  seconds_left_by_color : G -> Color -> Seconds;
  end_game : G -> G
}.

(** [reconchess.RemoteGame] and its subclass [MultiprocessingLocalGame]:
    what the single-player drivers use beyond [Game]. *)
Class RemoteGame `{Types} (G : Type) `{!Game G} := {
  get_player_color : G -> Color * G;
  get_starting_board : G -> Board * G;
  get_opponent_name : G -> Name * G
}.

(** [reconchess.Player].  [class_name] is [player.__class__.__name__]. *)
Class Player `{Types} (P : Type) := {
  class_name : P -> Name;
  handle_game_start : Color -> Board -> Name -> P -> P;
  handle_opponent_move_result : bool -> option Square -> P -> P;
  choose_sense : list Square -> list Move -> Seconds -> P -> option Square * P;
  handle_sense_result : SenseResult -> P -> P;
  choose_move : list Move -> Seconds -> P -> option Move * P;
  handle_move_result :
    option Move -> option Move -> bool -> option Square -> P -> P;
  handle_game_end : option Color -> option WinReason -> GameHistory -> P -> P
}.

(** A player object is referred to by its address. *)
Definition ref := nat.

(** ** Messages of the multiprocessing game

    A request is the tuple [(command, arguments)]: [request[0]] is the
    command name and [request[1]] a dict read only at the keys ['square']
    and ['requested_move'].  A key that is absent is [None] here; the value
    under a key is an [Optional[Square]] or an [Optional[Move]]. *)
Record Request `{Types} := {
  request_command : string;
  request_square : option (option Square);
  request_requested_move : option (option Move)
}.
Arguments Build_Request {_} request_command request_square
  request_requested_move.

(** The value stored under a key of a response dict. *)
Inductive value `{Types} :=
| VNone
| VBool (b : bool)
| VStr (s : string)
| VBoard (b : Board)
| VName (n : Name)
| VSquare (s : Square)
| VSquares (l : list Square)
| VMoves (l : list Move)
| VSeconds (s : Seconds)
| VSenseResult (r : SenseResult)
| VMoveResult (r : MoveResult)
| VWinReason (r : WinReason)
| VGameHistory (h : GameHistory).

(** An [Optional[...]] as a [value]. *)
Definition optional `{Types} {A} (inj : A -> value) (x : option A) : value :=
  match x with Some a => inj a | None => VNone end.

(** What is put on a 'to player' queue: a dict, or [None]. *)
Definition Response `{Types} : Type := option (gmap string value).

(** ** Traces

    One event per call on the game, on a player, on a queue or on a player
    process, with the arguments of the call and, where there is one, the
    value it returned. *)
Inductive event `{Types} :=
| G_store_players (white_name black_name : Name)
| G_start
| G_end
| G_sense_actions (ret : list Square)
| G_move_actions (ret : list Move)
| G_opponent_move_results (ret : option Square)
| G_sense (square : option Square) (ret : SenseResult)
| G_move (requested_move : option Move) (ret : MoveResult)
| G_end_turn
| G_is_over (ret : bool)
| G_get_seconds_left (ret : Seconds)
| G_get_winner_color (ret : option Color)
| G_get_win_reason (ret : option WinReason)
| G_get_game_history (ret : GameHistory)
| G_get_player_color (ret : Color)
| G_get_starting_board (ret : Board)
| G_get_opponent_name (ret : Name)
| P_handle_game_start (player : ref) (color : Color) (board : Board)
    (opponent_name : Name)
| P_handle_opponent_move_result (player : ref) (captured_my_piece : bool)
    (capture_square : option Square)
| P_choose_sense (player : ref) (sense_actions : list Square)
    (move_actions : list Move) (seconds_left : Seconds) (ret : option Square)
| P_handle_sense_result (player : ref) (sense_result : SenseResult)
| P_choose_move (player : ref) (move_actions : list Move)
    (seconds_left : Seconds) (ret : option Move)
| P_handle_move_result (player : ref) (requested_move taken_move : option Move)
    (captured_opponent_piece : bool) (capture_square : option Square)
| P_handle_game_end (player : ref) (winner_color : option Color)
    (win_reason : option WinReason) (game_history : GameHistory)
| Q_empty (color : Color) (ret : bool)
| Q_get (color : Color) (ret : Request)
| Q_put (color : Color) (response : Response)
| Proc_start (color : Color)
| Proc_is_alive (color : Color) (ret : bool).

(** The method an event is a call of, without its data. *)
Inductive call :=
| c_store_players | c_start | c_end | c_sense_actions | c_move_actions
| c_opponent_move_results | c_sense | c_move | c_end_turn | c_is_over
| c_get_seconds_left | c_get_winner_color | c_get_win_reason
| c_get_game_history | c_get_player_color | c_get_starting_board
| c_get_opponent_name
| c_handle_game_start | c_handle_opponent_move_result | c_choose_sense
| c_handle_sense_result | c_choose_move | c_handle_move_result
| c_handle_game_end
| c_queue_empty | c_queue_get | c_queue_put | c_process_start
| c_process_is_alive.

#[global] Instance call_eq_dec : EqDecision call.
Proof. solve_decision. Defined.

Definition call_of `{Types} (e : event) : call :=
  match e with
  | G_store_players _ _ => c_store_players
  | G_start => c_start
  | G_end => c_end
  | G_sense_actions _ => c_sense_actions
  | G_move_actions _ => c_move_actions
  | G_opponent_move_results _ => c_opponent_move_results
  | G_sense _ _ => c_sense
  | G_move _ _ => c_move
  | G_end_turn => c_end_turn
  | G_is_over _ => c_is_over
  | G_get_seconds_left _ => c_get_seconds_left
  | G_get_winner_color _ => c_get_winner_color
  | G_get_win_reason _ => c_get_win_reason
  | G_get_game_history _ => c_get_game_history
  | G_get_player_color _ => c_get_player_color
  | G_get_starting_board _ => c_get_starting_board
  | G_get_opponent_name _ => c_get_opponent_name
  | P_handle_game_start _ _ _ _ => c_handle_game_start
  | P_handle_opponent_move_result _ _ _ => c_handle_opponent_move_result
  | P_choose_sense _ _ _ _ _ => c_choose_sense
  | P_handle_sense_result _ _ => c_handle_sense_result
  | P_choose_move _ _ _ _ => c_choose_move
  | P_handle_move_result _ _ _ _ _ => c_handle_move_result
  | P_handle_game_end _ _ _ _ => c_handle_game_end
  | Q_empty _ _ => c_queue_empty
  | Q_get _ _ => c_queue_get
  | Q_put _ _ => c_queue_put
  | Proc_start _ => c_process_start
  | Proc_is_alive _ _ => c_process_is_alive
  end.

(** The calls of a trace, and how often a method is called in it. *)
Definition calls `{Types} (tr : list event) : list call := call_of <$> tr.

Definition times_called `{Types} (c : call) (tr : list event) : nat :=
  length (filter (fun c' => c' = c) (calls tr)).

(** Some occurrence of [a] in [l] has an occurrence of [b] after it. *)
Fixpoint precedes (a b : call) (l : list call) : bool :=
  match l with
  | [] => false
  | x :: l' => bool_decide (x = a) && bool_decide (b ∈ l') || precedes a b l'
  end.

(** Some occurrence of [a] in [l] has [b] right after it. *)
Fixpoint followed_at_once (a b : call) (l : list call) : bool :=
  match l with
  | [] => false
  | x :: l' =>
      bool_decide (x = a) && bool_decide (head l' = Some b)
      || followed_at_once a b l'
  end.

(** ** The monad of the drivers

    A computation runs from a state to a [run]: how it ended, the state it
    left behind and the calls it made.  It ends by returning, by raising,
    by blocking for ever in [Queue.get], or by using up the fuel of a
    [while] loop. *)
Inductive exn :=
| KeyError (key : string).

Inductive status (A : Type) :=
| Returned (a : A)
| Raised (e : exn)
| Blocked
| OutOfFuel.
Arguments Returned {A} a.
Arguments Raised {A} e.
Arguments Blocked {A}.
Arguments OutOfFuel {A}.

Record run `{Types} (S A : Type) := Run {
  result : status A;
  final : S;
  trace : list event
}.
Arguments Run {_ S A} result final trace.
Arguments result {_ S A} r.
Arguments final {_ S A} r.
Arguments trace {_ S A} r.

Definition M `{Types} (S A : Type) : Type := S -> run S A.

Section Monad.
Context `{Types} {S : Type}.

#[export] Instance M_ret : MRet (M S) := fun A (a : A) s =>
  Run (Returned a) s [].

Definition raise {A} (e : exn) : M S A := fun s => Run (Raised e) s [].

(** [m] runs first; what follows runs from the state [m] left, unless [m]
    did not return. *)
#[export] Instance M_bind : MBind (M S) := fun A B (k : A -> M S B) m s =>
  let r := m s in
  match result r with
  | Returned a =>
      let r' := k a (final r) in
      Run (result r') (final r') (trace r ++ trace r')
  | Raised e => Run (Raised e) (final r) (trace r)
  | Blocked => Run Blocked (final r) (trace r)
  | OutOfFuel => Run OutOfFuel (final r) (trace r)
  end.

(** [while cond: body], with at most [fuel] evaluations of [cond]. *)
Fixpoint while (fuel : nat) (cond : M S bool) (body : M S unit) : M S unit :=
  match fuel with
  | O => fun s => Run OutOfFuel s []
  | Datatypes.S fuel' =>
      b ← cond;
      if b : bool then body;; while fuel' cond body else mret tt
  end.

(** [for x in l: body x] *)
Fixpoint for_each {A} (l : list A) (body : A -> M S unit) : M S unit :=
  match l with
  | [] => mret tt
  | x :: l' => body x;; for_each l' body
  end.
End Monad.

(** ** Calls on the game

    The drivers below run in two kinds of state, both of which hold the
    game object. *)
Class Holds (G S : Type) := {
  the_game : S -> G;
  with_game : G -> S -> S
}.

Section GameCalls.
Context `{Types} {G S : Type} `{!Game G} `{!Holds G S}.

(** A call of a method that returns a value. *)
Definition method {A} (m : G -> A * G) (ev : A -> event) : M S A := fun s =>
  let r := m (the_game s) in
  Run (Returned r.1) (with_game r.2 s) [ev r.1].

(** A call of a method that returns nothing. *)
Definition procedure (m : G -> G) (ev : event) : M S unit := fun s =>
  Run (Returned tt) (with_game (m (the_game s)) s) [ev].

(** An attribute read; it is no call, and leaves no event. *)
Definition attribute {A} (f : G -> A) : M S A := fun s =>
  Run (Returned (f (the_game s))) s [].

Definition game_sense_actions := method sense_actions G_sense_actions.
Definition game_move_actions := method move_actions G_move_actions.
Definition game_opponent_move_results :=
  method opponent_move_results G_opponent_move_results.
Definition game_sense (square : option Square) :=
  method (sense square) (G_sense square).
Definition game_move (requested_move : option Move) :=
  method (move requested_move) (G_move requested_move).
Definition game_end_turn := procedure end_turn G_end_turn.
Definition game_start := procedure start G_start.
Definition game_is_over := method is_over G_is_over.
Definition game_get_seconds_left :=
  method get_seconds_left G_get_seconds_left.
Definition game_get_winner_color :=
  method get_winner_color G_get_winner_color.
Definition game_get_win_reason := method get_win_reason G_get_win_reason.
Definition game_get_game_history :=
  method get_game_history G_get_game_history.

Context `{!LocalGame G}.

Definition game_store_players (white_name black_name : Name) :=
  procedure (store_players white_name black_name)
    (G_store_players white_name black_name).
Definition game_end := procedure end_game G_end.
Definition game_board_copy := attribute board_copy.
Definition game_turn := attribute turn.
Definition game_seconds_left_by_color (color : Color) :=
  attribute (fun g => seconds_left_by_color g color).
End GameCalls.

Section RemoteGameCalls.
Context `{Types} {G S : Type} `{!Game G, !RemoteGame G} `{!Holds G S}.

Definition game_get_player_color :=
  method get_player_color G_get_player_color.
Definition game_get_starting_board :=
  method get_starting_board G_get_starting_board.
Definition game_get_opponent_name :=
  method get_opponent_name G_get_opponent_name.
End RemoteGameCalls.

(** ** The turn engine and the whole-game drivers

    The state of [play_local_game], [play_remote_game] and of a player
    process: the game object and the player objects, by address. *)
Record table (G P : Type) := Table {
  t_game : G;
  t_players : ref -> P
}.
Arguments Table {G P} t_game t_players.
Arguments t_game {G P} t.
Arguments t_players {G P} t.

#[global] Instance table_holds G P : Holds G (table G P) := {|
  the_game := t_game;
  with_game g t := Table g (t_players t)
|}.

Section Players.
Context `{Types} {G P : Type} `{!Player P}.

Definition player_method {A} (player : ref) (m : P -> A * P)
    (ev : A -> event) : M (table G P) A := fun t =>
  let r := m (t_players t player) in
  Run (Returned r.1) (Table (t_game t) (<[player := r.2]> (t_players t)))
    [ev r.1].

Definition player_procedure (player : ref) (m : P -> P) (ev : event)
    : M (table G P) unit := fun t =>
  Run (Returned tt)
    (Table (t_game t) (<[player := m (t_players t player)]> (t_players t)))
    [ev].

Definition player_class_name (player : ref) : M (table G P) Name := fun t =>
  Run (Returned (class_name (t_players t player))) t [].

Definition player_handle_game_start player color board opponent_name :=
  player_procedure player (handle_game_start color board opponent_name)
    (P_handle_game_start player color board opponent_name).
Definition player_handle_opponent_move_result player captured square :=
  player_procedure player (handle_opponent_move_result captured square)
    (P_handle_opponent_move_result player captured square).
Definition player_choose_sense player sense_acts move_acts seconds :=
  player_method player (choose_sense sense_acts move_acts seconds)
    (P_choose_sense player sense_acts move_acts seconds).
Definition player_handle_sense_result player sense_result :=
  player_procedure player (handle_sense_result sense_result)
    (P_handle_sense_result player sense_result).
Definition player_choose_move player move_acts seconds :=
  player_method player (choose_move move_acts seconds)
    (P_choose_move player move_acts seconds).
Definition player_handle_move_result player requested taken captured square :=
  player_procedure player (handle_move_result requested taken captured square)
    (P_handle_move_result player requested taken captured square).
Definition player_handle_game_end player winner_color win_reason history :=
  player_procedure player (handle_game_end winner_color win_reason history)
    (P_handle_game_end player winner_color win_reason history).
End Players.

Section TurnEngine.
Context `{Types} {G P : Type} `{!Game G, !Player P}.

Abbreviation M' := (M (table G P)).

(** [notify_opponent_move_results(game, player)] *)
Definition notify_opponent_move_results (player : ref) : M' unit :=
  opt_capture_square ← game_opponent_move_results;
  player_handle_opponent_move_result player
    (is_not_None opt_capture_square) opt_capture_square.

(** [play_sense(game, player, sense_actions, move_actions)].  The
    arguments of [choose_sense] are evaluated before the call, so the
    clock is read first. *)
Definition play_sense (player : ref) (sense_acts : list Square)
    (move_acts : list Move) : M' unit :=
  seconds ← game_get_seconds_left;
  sense ← player_choose_sense player sense_acts move_acts seconds;
  sense_result ← game_sense sense;
  player_handle_sense_result player sense_result.

(** [play_move(game, player, move_actions, end_turn_last)] *)
Definition play_move (player : ref) (move_acts : list Move)
    (end_turn_last : bool) : M' unit :=
  seconds ← game_get_seconds_left;
  move ← player_choose_move player move_acts seconds;
  move_result ← game_move move;
  let requested_move := move_result.1.1 in
  let taken_move := move_result.1.2 in
  let opt_enemy_capture_square := move_result.2 in
  (if negb end_turn_last then game_end_turn else mret tt);;
  player_handle_move_result player requested_move taken_move
    (is_not_None opt_enemy_capture_square) opt_enemy_capture_square;;
  (if end_turn_last then game_end_turn else mret tt).

(** [play_turn(game, player, end_turn_last)] *)
Definition play_turn (player : ref) (end_turn_last : bool) : M' unit :=
  sense_acts ← game_sense_actions;
  move_acts ← game_move_actions;
  notify_opponent_move_results player;;
  play_sense player sense_acts move_acts;;
  play_move player move_acts end_turn_last.

(** The three lines that close every driver. *)
Definition final_results : M' GameResult :=
  winner_color ← game_get_winner_color;
  win_reason ← game_get_win_reason;
  game_history ← game_get_game_history;
  mret (winner_color, win_reason, game_history).

(** [play_local_game(white_player, black_player, game, seconds_per_player)],
    run on the player objects of [players_heap].  [players] is indexed by
    [game.turn], a bool: [False] is 0 and [True] is 1. *)
Definition play_local_game `{!LocalGame G} (fuel : nat)
    (white_player black_player : ref) (game : option G)
    (seconds_per_player : Seconds) (players_heap : ref -> P)
    : run (table G P) GameResult :=
  let players := [black_player; white_player] in
  let game := default (LocalGame_new seconds_per_player) game in
  (white_name ← player_class_name white_player;
   black_name ← player_class_name black_player;
   game_store_players white_name black_name;;
   board ← game_board_copy;
   player_handle_game_start white_player WHITE board black_name;;
   board ← game_board_copy;
   player_handle_game_start black_player BLACK board white_name;;
   game_start;;
   while fuel (over ← game_is_over; mret (negb over))
     (turn ← game_turn;
      play_turn (nth (Nat.b2n turn) players black_player) true);;
   game_end;;
   results ← final_results;
   player_handle_game_end white_player results.1.1 results.1.2 results.2;;
   player_handle_game_end black_player results.1.1 results.1.2 results.2;;
   mret results)
  (Table game players_heap).

(** [play_remote_game(server_url, game_id, auth, player)], run from the
    state in which [RemoteGame(server_url, game_id, auth)] has been
    constructed. *)
Definition play_remote_game `{!RemoteGame G} (fuel : nat) (player : ref)
    : M' GameResult :=
  color ← game_get_player_color;
  board ← game_get_starting_board;
  opponent_name ← game_get_opponent_name;
  player_handle_game_start player color board opponent_name;;
  game_start;;
  while fuel (over ← game_is_over; mret (negb over))
    (play_turn player false);;
  results ← final_results;
  player_handle_game_end player results.1.1 results.1.2 results.2;;
  mret results.

(** [_play_in_multiprocessing_local_game(queues, player_class)], run from
    the state in which [MultiprocessingLocalGame(queues)] and
    [player_class()] have been constructed, the latter at [player]. *)
Definition _play_in_multiprocessing_local_game `{!RemoteGame G} (fuel : nat)
    (player : ref) : M' unit :=
  color ← game_get_player_color;
  board ← game_get_starting_board;
  opponent_name ← game_get_opponent_name;
  player_handle_game_start player color board opponent_name;;
  game_start;;
  while fuel (over ← game_is_over; mret (negb over))
    (play_turn player false);;
  results ← final_results;
  player_handle_game_end player results.1.1 results.1.2 results.2.
End TurnEngine.

(** ** The moderator of a multiprocessing game

    [queues[color]] is the dict of the two [mp.Queue]s of a color; a queue
    is the list of what was put and not yet taken, oldest first. *)
Record channel `{Types} := Channel {
  to_player : list Response;
  to_moderator : list Request
}.
Arguments Channel {_} to_player to_moderator.

(** The two player processes and whatever schedules them, as far as the
    moderator can tell: it starts the process of a color on a player
    class, it asks if the process is alive, and while it is busy elsewhere
    the processes run, which puts requests on the 'to moderator' queues
    and takes responses off the 'to player' queues. *)
Class Peers `{Types} (E C : Type) := {
  __name__ : C -> Name;
  Process_start : Color -> C -> E -> E;
  Process_is_alive : Color -> E -> bool;
  peers_run : E -> (Color -> channel) -> E * (Color -> channel)
}.

(** The state of the moderator: the [LocalGame], the attribute
    [game.player_names] that [play_multiprocessing_local_game] adds to it,
    the queues and the player processes. *)
Record moderator `{Types} (G E : Type) := Moderator {
  m_game : G;
  m_player_names : Name * Name;
  m_queues : Color -> channel;
  m_peers : E
}.
Arguments Moderator {_ G E} m_game m_player_names m_queues m_peers.
Arguments m_game {_ G E} m.
Arguments m_player_names {_ G E} m.
Arguments m_queues {_ G E} m.
Arguments m_peers {_ G E} m.

#[global] Instance moderator_holds `{Types} G E : Holds G (moderator G E) := {|
  the_game := m_game;
  with_game g m := Moderator g (m_player_names m) (m_queues m) (m_peers m)
|}.

(** [names[i]] for a pair and a bool index. *)
Definition pair_index {A} (names : A * A) (i : bool) : A :=
  if i then names.2 else names.1.

Section Moderator.
Context `{Types} {G E : Type} `{!Game G, !LocalGame G}.

Abbreviation M' := (M (moderator G E)).

Definition with_queues (q : Color -> channel) (m : moderator G E) :=
  Moderator (m_game m) (m_player_names m) q (m_peers m).

(** [queues[color]['to moderator'].empty()] *)
Definition queue_empty (color : Color) : M' bool := fun m =>
  let b := match to_moderator (m_queues m color) with
           | [] => true
           | _ :: _ => false
           end in
  Run (Returned b) m [Q_empty color b].

(** [queues[color]['to moderator'].get()]: it waits for an item. *)
Definition queue_get (color : Color) : M' Request := fun m =>
  let q := m_queues m color in
  match to_moderator q with
  | [] => Run Blocked m []
  | request :: rest =>
      Run (Returned request)
        (with_queues (<[color := Channel (to_player q) rest]> (m_queues m)) m)
        [Q_get color request]
  end.

(** [queues[color]['to player'].put(response)] *)
Definition queue_put (color : Color) (response : Response) : M' unit :=
  fun m =>
  let q := m_queues m color in
  Run (Returned tt)
    (with_queues
       (<[color := Channel (to_player q ++ [response]) (to_moderator q)]>
          (m_queues m)) m)
    [Q_put color response].

(** [game.player_names] *)
Definition game_player_names : M' (Name * Name) := fun m =>
  Run (Returned (m_player_names m)) m [].

(** [request[1]['square']] and [request[1]['requested_move']] *)
Definition square_of (request : Request) : M' (option Square) :=
  match request_square request with
  | Some square => mret square
  | None => raise (KeyError "square")
  end.

Definition requested_move_of (request : Request) : M' (option Move) :=
  match request_requested_move request with
  | Some requested_move => mret requested_move
  | None => raise (KeyError "requested_move")
  end.

(** [put({key: value})] on the 'to player' queue of [color] *)
Definition answer (color : Color) (key : string) (v : value) : M' unit :=
  queue_put color (Some {[ key := v ]}).

(** The dict [responses] of [_respond_to_requests]: a closure per
    command, none of them run yet.  [color], [request] and [on_own_turn]
    are the variables the closures capture.  [game.end_turn()] returns
    [None], so [game.end_turn() or put(...)] goes on to its second
    operand. *)
Definition responses (color : Color) (request : Request)
    (on_own_turn : bool) : gmap string (M' unit) :=
  list_to_map [
    ("color", answer color "color" (VBool color));
    ("starting_board", answer color "board" (VBoard chess_Board));
    ("opponent_name",
      names ← game_player_names;
      answer color "opponent_name" (VName (pair_index names (negb color))));
    ("sense_actions",
      v ← (if on_own_turn
           then l ← game_sense_actions; mret (VSquares l)
           else mret VNone);
      answer color "sense_actions" v);
    ("move_actions",
      v ← (if on_own_turn
           then l ← game_move_actions; mret (VMoves l)
           else mret VNone);
      answer color "move_actions" v);
    ("seconds_left",
      v ← (if on_own_turn
           then game_get_seconds_left
           else game_seconds_left_by_color color);
      answer color "seconds_left" (VSeconds v));
    ("ready", answer color "ready" (VStr "ready"));
    ("is_my_turn",
      v ← (if on_own_turn then mret on_own_turn else game_is_over);
      answer color "is_my_turn" (VBool v));
    ("opponent_move_results",
      v ← (if on_own_turn
           then s ← game_opponent_move_results; mret (optional VSquare s)
           else mret VNone);
      answer color "opponent_move_results" v);
    ("sense",
      v ← (if on_own_turn
           then square ← square_of request;
                r ← game_sense square; mret (VSenseResult r)
           else mret VNone);
      answer color "sense_result" v);
    ("move",
      v ← (if on_own_turn
           then requested_move ← requested_move_of request;
                r ← game_move requested_move; mret (VMoveResult r)
           else mret VNone);
      answer color "move_result" v);
    ("end_turn",
      if on_own_turn
      then game_end_turn;; answer color "end_turn" (VStr "done")
      else queue_put color None);
    ("game_status",
      over ← game_is_over;
      queue_put color
        (Some {[ "is_over" := VBool over; "is_my_turn" := VBool on_own_turn ]}));
    ("winner_color",
      v ← game_get_winner_color;
      answer color "winner_color" (optional VBool v));
    ("win_reason",
      v ← game_get_win_reason;
      answer color "win_reason" (optional VWinReason v));
    ("game_history",
      v ← game_get_game_history;
      answer color "game_history" (VGameHistory v))
  ].

(** What [_respond_to_requests] does with a request taken off the queue
    of [color]: the rest of the body of its [if]. *)
Definition respond (color : Color) (request : Request) : M' unit :=
  let command := request_command request in
  game_turn ← game_turn;
  let on_own_turn := Bool.eqb game_turn color in
  match responses color request on_own_turn !! command with
  | Some response => response
  | None => raise (KeyError command)
  end.

(** The moderator state once the oldest request of [color] is taken off
    its queue. *)
Definition taken (color : Color) (m : moderator G E) : moderator G E :=
  with_queues
    (<[color := Channel (to_player (m_queues m color))
                  (tail (to_moderator (m_queues m color)))]> (m_queues m)) m.

(** The body of the [for] loop of [_respond_to_requests]. *)
Definition poll (color : Color) : M' unit :=
  empty ← queue_empty color;
  if negb empty
  then request ← queue_get color; respond color request
  else mret tt.

(** [_respond_to_requests(game, queues)] *)
Definition _respond_to_requests : M' unit :=
  for_each COLORS poll.

Context {C : Type} `{!Peers E C}.

(** The player processes get to run. *)
Definition yield : M' unit := fun m =>
  let r := peers_run (m_peers m) (m_queues m) in
  Run (Returned tt) (Moderator (m_game m) (m_player_names m) r.2 r.1) [].

(** [process.start()] and [process.is_alive()] *)
Definition process_start (color : Color) (player_class : C) : M' unit :=
  fun m =>
  Run (Returned tt)
    (Moderator (m_game m) (m_player_names m) (m_queues m)
       (Process_start color player_class (m_peers m)))
    [Proc_start color].

Definition process_is_alive (color : Color) : M' bool := fun m =>
  let b := Process_is_alive color (m_peers m) in
  Run (Returned b) m [Proc_is_alive color b].

(** [play_multiprocessing_local_game(white_player_class,
    black_player_class, game, seconds_per_player)], run with the player
    processes of [peers].  The queues are new, so empty.  The processes
    run between two rounds of the moderator: at the head of both loops. *)
Definition play_multiprocessing_local_game (fuel : nat)
    (white_player_class black_player_class : C) (game : option G)
    (seconds_per_player : Seconds) (peers : E)
    : run (moderator G E) GameResult :=
  let game := default (LocalGame_new seconds_per_player) game in
  let white_name := __name__ white_player_class in
  let black_name := __name__ black_player_class in
  (game_store_players white_name black_name;;
   process_start BLACK black_player_class;;
   process_start WHITE white_player_class;;
   game_start;;
   while fuel (yield;; over ← game_is_over; mret (negb over))
     _respond_to_requests;;
   game_end;;
   while fuel
     (yield;;
      black_alive ← process_is_alive BLACK;
      white_alive ← process_is_alive WHITE;
      mret (black_alive || white_alive))
     _respond_to_requests;;
   winner_color ← game_get_winner_color;
   win_reason ← game_get_win_reason;
   game_history ← game_get_game_history;
   mret (winner_color, win_reason, game_history))
  (Moderator game (black_name, white_name)
     (fun _ => Channel [] []) peers).
End Moderator.

(** ** A small game, player and pair of processes to run the drivers on

    The game is over after a given number of half-moves; a player takes
    the first action it is offered and counts the calls it receives; the
    player processes follow a script of requests. *)
Module Toy.
#[export] Instance types : Types := {|
  Square := nat;
  Move := nat;
  SenseResult := list nat;
  Seconds := nat;
  Board := string;
  Name := string;
  WinReason := string;
  GameHistory := list nat;
  chess_Board := "start"
|}.

Record game := Game' {
  to_move : Color;
  half_moves_left : nat;
  clock : Color -> nat;
  moves_made : list nat
}.

Definition over (g : game) : bool := Nat.eqb (half_moves_left g) 0.

#[export] Instance game_ops : Game game := {|
  sense_actions g := ([0; 1; 2], g);
  move_actions g := ([10; 11], g);
  opponent_move_results g := (None, g);
  sense square g := (from_option (fun s => [s]) [] square, g);
  move requested_move g :=
    ((requested_move, requested_move, None),
     Game' (to_move g) (half_moves_left g) (clock g)
       (moves_made g ++ from_option (fun m => [m]) [] requested_move));
  end_turn g :=
    Game' (negb (to_move g)) (pred (half_moves_left g)) (clock g)
      (moves_made g);
  start g := g;
  is_over g := (over g, g);
  get_seconds_left g := (clock g (to_move g), g);
  get_winner_color g :=
    (if over g then Some (negb (to_move g)) else None, g);
  get_win_reason g := (if over g then Some "king capture" else None, g);
  get_game_history g := (moves_made g, g)
|}.

#[export] Instance local_game_ops : LocalGame game := {|
  LocalGame_new seconds := Game' WHITE 2 (fun _ => seconds) [];
  store_players _ _ g := g;
  board_copy _ := "start";
  turn := to_move;
  seconds_left_by_color := clock;
  end_game g := g
|}.

#[export] Instance remote_game_ops : RemoteGame game := {|
  get_player_color g := (WHITE, g);
  get_starting_board g := ("start", g);
  get_opponent_name g := ("Bot", g)
|}.

#[export] Instance player_ops : Player nat := {|
  class_name _ := "Bot";
  handle_game_start _ _ _ p := S p;
  handle_opponent_move_result _ _ p := S p;
  choose_sense sense_acts _ _ p := (head sense_acts, S p);
  handle_sense_result _ p := S p;
  choose_move move_acts _ p := (head move_acts, S p);
  handle_move_result _ _ _ _ p := S p;
  handle_game_end _ _ _ p := S p
|}.

(** The processes: each time they run they send the requests of the next
    step of the script and take the responses that wait for them; they
    are alive until the script is used up. *)
Definition script := list (list (Color * Request)).

Definition send (q : Color -> channel) (message : Color * Request)
    : Color -> channel :=
  <[message.1 := Channel (to_player (q message.1))
                   (to_moderator (q message.1) ++ [message.2])]> q.

#[export] Instance peers_ops : Peers script string := {|
  __name__ name := name;
  Process_start _ _ e := e;
  Process_is_alive _ e := negb (bool_decide (e = []));
  peers_run e q :=
    (tail e,
     foldl send (fun c => Channel [] (to_moderator (q c)))
       (from_option id [] (head e)))
|}.

Definition ask (command : string) : Request := Build_Request command None None.
Definition ask_sense (square : nat) : Request :=
  Build_Request "sense" (Some (Some square)) None.
Definition ask_move (requested_move : nat) : Request :=
  Build_Request "move" None (Some (Some requested_move)).

(** White to move, [n] half-moves from the end, 900 seconds each. *)
Definition game_in (n : nat) : game := Game' WHITE n (fun _ => 900) [].

(** Two players on a table, at addresses 1 (white) and 2 (black). *)
Definition table_in (n : nat) : table game nat :=
  Table (game_in n) (fun _ => 0).

(** A moderator with the given requests waiting. *)
Definition moderator_in (g : game) (white black : list Request)
    : moderator game script :=
  Moderator g ("BlackBot", "WhiteBot")
    (fun c => Channel [] (if c then white else black)) [].

(** The script of a short game: White asks for its sense actions while
    Black asks for its move actions, White ends its turn, which ends the
    game, and then Black asks who won and White asks for the history. *)
Definition short_game : script :=
  [[(WHITE, ask "sense_actions"); (BLACK, ask "move_actions")];
   [(WHITE, ask "end_turn")];
   [(BLACK, ask "winner_color")];
   [(WHITE, ask "game_history")];
   []].
End Toy.

(** ** What the claims say, as predicates on runs *)

(** The opponent's move results are asked for before the sense actions and
    before the move actions. *)
Definition notified_before_actions `{Types} (tr : list event) : Prop :=
  precedes c_opponent_move_results c_sense_actions (calls tr) = true /\
  precedes c_opponent_move_results c_move_actions (calls tr) = true.

(** Rounds of a loop: the trace of the guard, then the trace of the body,
    round after round. *)
Inductive rounds `{Types} (guard body : list event -> Prop)
    : list event -> Prop :=
| rounds_done : rounds guard body []
| rounds_more g b rest :
    guard g -> body b -> rounds guard body rest ->
    rounds guard body (g ++ b ++ rest).

(** The game said it is not over. *)
Definition not_over `{Types} (tr : list event) : Prop :=
  tr = [G_is_over false].

(** The commands of the moderator, and those it answers in full only to
    the color whose turn it is. *)
Definition commands : list string :=
  ["color"; "starting_board"; "opponent_name"; "sense_actions";
   "move_actions"; "seconds_left"; "ready"; "is_my_turn";
   "opponent_move_results"; "sense"; "move"; "end_turn"; "game_status";
   "winner_color"; "win_reason"; "game_history"].

Definition gated_commands : list string :=
  ["sense_actions"; "move_actions"; "opponent_move_results"; "sense"; "move"].

Definition read_only_commands : list string :=
  ["winner_color"; "win_reason"; "game_history"].

(** The keys of the dict that answers a command. *)
Definition response_keys (command : string) : list string :=
  if String.eqb command "starting_board" then ["board"]
  else if String.eqb command "sense" then ["sense_result"]
  else if String.eqb command "move" then ["move_result"]
  else if String.eqb command "game_status" then ["is_over"; "is_my_turn"]
  else [command].

(** The one key of the dict that answers a gated command. *)
Definition response_key (command : string) : string :=
  default command (head (response_keys command)).

(** A response that fits a command: the dict with the keys of the
    command, or the [None] that only [end_turn] is answered with. *)
Definition answers `{Types} (command : string) (response : Response) : Prop :=
  match response with
  | Some fields => dom fields = list_to_set (response_keys command)
  | None => command = "end_turn"
  end.

(** A request the player processes can send: a command of the table, with
    the argument that [sense] and [move] read. *)
Definition well_formed `{Types} (request : Request) : bool :=
  bool_decide (request_command request ∈ commands)
  && (if String.eqb (request_command request) "sense"
      then is_not_None (request_square request) else true)
  && (if String.eqb (request_command request) "move"
      then is_not_None (request_requested_move request) else true).

(** The queue an event is an operation on. *)
Definition queue_of `{Types} (e : event) : option Color :=
  match e with
  | Q_empty color _ | Q_get color _ | Q_put color _ => Some color
  | _ => None
  end.

(** The queue operations of a trace for a color. *)
Definition queue_events `{Types} (color : Color) (tr : list event)
    : list event :=
  filter (fun e => queue_of e = Some color) tr.

(** What the game call [e] makes of a read-only command: the response
    that carries what the game returned. *)
Definition read_only_answer `{Types} (command : string) (e : event)
    : option Response :=
  match e with
  | G_get_winner_color winner_color =>
      if String.eqb command "winner_color"
      then Some (Some {[ "winner_color" := optional VBool winner_color ]})
      else None
  | G_get_win_reason win_reason =>
      if String.eqb command "win_reason"
      then Some (Some {[ "win_reason" := optional VWinReason win_reason ]})
      else None
  | G_get_game_history game_history =>
      if String.eqb command "game_history"
      then Some (Some {[ "game_history" := VGameHistory game_history ]})
      else None
  | _ => None
  end.

Section ModeratorClaims.
Context `{Types} {G E : Type} `{!Game G, !LocalGame G}.

(** [request] is the oldest request of [color] that waits for the
    moderator. *)
Definition pending (color : Color) (request : Request)
    (m : moderator G E) : Prop :=
  head (to_moderator (m_queues m color)) = Some request.

(** The run [r] of [poll color] from [m] found [request], took it off
    the queue, made the calls [game_calls] on the game and nothing else,
    and put [response] at the end of the 'to player' queue of [color]. *)
Definition served (color : Color) (request : Request) (m : moderator G E)
    (game_calls : list event) (response : Response)
    (r : run (moderator G E) unit) : Prop :=
  result r = Returned tt /\
  trace r =
    [Q_empty color false; Q_get color request] ++ game_calls ++
    [Q_put color response] /\
  m_queues (final r) color =
    Channel (to_player (m_queues m color) ++ [response])
      (tail (to_moderator (m_queues m color))).

(** C2: a gated request from the color whose turn it is not is answered
    with [None] under its key, without a call on the game, and the game
    is what it was. *)
Definition not_available (color : Color) (request : Request)
    (m : moderator G E) (r : run (moderator G E) unit) : Prop :=
  served color request m []
    (Some {[ response_key (request_command request) := VNone ]}) r /\
  m_game (final r) = m_game m.

(** C3, as the claim has it: the answer to [command] has a field
    ['is_my_turn'] that is true if it is the turn of the color that asks
    or the game is over, and only then. *)
Definition reports_turn_or_end (command : string) : Prop :=
  forall color request (m : moderator G E),
    pending color request m ->
    request_command request = command ->
    exists fields,
      Q_put color (Some fields) ∈ trace (poll color m) /\
      fields !! "is_my_turn" =
        Some (VBool (Bool.eqb (turn (m_game m)) color
                     || (is_over (m_game m)).1)).

(** C3, as the code has it: ['is_my_turn'] is answered with "my turn, or
    else what [game.is_over()] says", and the game is asked only when it
    is not the turn of the color; ['game_status'] asks the game whether
    it is over and answers that under ['is_over'], and under
    ['is_my_turn'] only whether it is the turn of the color. *)
Definition turn_reported (color : Color) (request : Request)
    (m : moderator G E) (r : run (moderator G E) unit) : Prop :=
  let on_own_turn := Bool.eqb (turn (m_game m)) color in
  let over := (is_over (m_game m)).1 in
  (request_command request = "is_my_turn" /\
   served color request m
     (if on_own_turn then [] else [G_is_over over])
     (Some {[ "is_my_turn" := VBool (on_own_turn || over) ]}) r) \/
  (request_command request = "game_status" /\
   served color request m [G_is_over over]
     (Some {[ "is_over" := VBool over;
              "is_my_turn" := VBool on_own_turn ]}) r).

(** C7: on its turn the color gets what [game.get_seconds_left()]
    returns; off its turn it gets its own entry of
    [game.seconds_left_by_color], and the game is not called. *)
Definition clock_reported (color : Color) (request : Request)
    (m : moderator G E) (r : run (moderator G E) unit) : Prop :=
  if Bool.eqb (turn (m_game m)) color
  then
    let seconds := (get_seconds_left (m_game m)).1 in
    served color request m [G_get_seconds_left seconds]
      (Some {[ "seconds_left" := VSeconds seconds ]}) r
  else
    served color request m []
      (Some {[ "seconds_left" :=
                 VSeconds (seconds_left_by_color (m_game m) color) ]}) r /\
    m_game (final r) = m_game m.

(** C8: on its turn the color has [game.end_turn()] called and is then
    answered ['done']; off its turn it is answered [None], and the game
    is not called. *)
Definition turn_ended (color : Color) (request : Request)
    (m : moderator G E) (r : run (moderator G E) unit) : Prop :=
  if Bool.eqb (turn (m_game m)) color
  then
    served color request m [G_end_turn]
      (Some {[ "end_turn" := VStr "done" ]}) r /\
    m_game (final r) = end_turn (m_game m)
  else
    served color request m [] None r /\
    m_game (final r) = m_game m.

(** C5: the run [r] of [_respond_to_requests] from [m] returned, and for
    either color it asked once whether the queue is empty; if a request
    waited it took that one and put one response that fits its command,
    else it did nothing more on the queues of the color. *)
Definition polled_once (m : moderator G E) (r : run (moderator G E) unit)
    : Prop :=
  result r = Returned tt /\
  forall color,
    match head (to_moderator (m_queues m color)) with
    | Some request =>
        exists response,
          answers (request_command request) response /\
          queue_events color (trace r) =
            [Q_empty color false; Q_get color request;
             Q_put color response] /\
          m_queues (final r) color =
            Channel (to_player (m_queues m color) ++ [response])
              (tail (to_moderator (m_queues m color)))
    | None =>
        queue_events color (trace r) = [Q_empty color true] /\
        m_queues (final r) color = m_queues m color
    end.

(** C5, as the claim has it: whatever waits on the queues, a call of
    [_respond_to_requests] serves either color as [polled_once] says. *)
Definition always_polled_once : Prop :=
  forall m : moderator G E, polled_once m (_respond_to_requests m).

(** The trace of one call of [_respond_to_requests]. *)
Definition a_round (tr : list event) : Prop :=
  exists m : moderator G E, tr = trace (_respond_to_requests m).

(** Both processes were asked, and one of them is alive. *)
Definition some_alive (tr : list event) : Prop :=
  exists black_alive white_alive,
    tr = [Proc_is_alive BLACK black_alive; Proc_is_alive WHITE white_alive] /\
    black_alive || white_alive = true.

(** C6: the moderator answered requests round after round until the game
    said it is over, ended the game, and went on answering round after
    round until both processes were found dead; only then did it read
    the results it returns. *)
Definition served_to_the_end (white_name black_name : Name)
    (results : GameResult) (tr : list event) : Prop :=
  exists playing draining,
    rounds not_over a_round playing /\
    rounds some_alive a_round draining /\
    tr =
      [G_store_players white_name black_name; Proc_start BLACK;
       Proc_start WHITE; G_start] ++
      playing ++ [G_is_over true; G_end] ++ draining ++
      [Proc_is_alive BLACK false; Proc_is_alive WHITE false;
       G_get_winner_color results.1.1; G_get_win_reason results.1.2;
       G_get_game_history results.2].

(** C6: in the run [r] of a round, the read-only request of [color] was
    taken, the game was asked, and what it returned was put on the 'to
    player' queue of [color] at once. *)
Definition read_only_answered (color : Color) (request : Request)
    (r : run (moderator G E) unit) : Prop :=
  result r = Returned tt /\
  exists earlier e response later,
    read_only_answer (request_command request) e = Some response /\
    trace r =
      earlier ++ [Q_get color request; e; Q_put color response] ++ later.

(** C6, second part, as the claim has it: in any round, a read-only
    request that waits is answered. *)
Definition read_only_always_answered : Prop :=
  forall color request (m : moderator G E),
    pending color request m ->
    request_command request ∈ read_only_commands ->
    read_only_answered color request (_respond_to_requests m).

(** Every request that waits on the queues is one the player processes
    can send. *)
Definition well_formed_queues (q : Color -> channel) : Prop :=
  forall color,
    Forall (fun request => well_formed request = true)
      (to_moderator (q color)).

Context {C : Type} `{!Peers E C}.

(** Player processes that send well-formed requests only, as long as
    they are in a state of [J]: starting a process keeps [J], and when
    the processes run they keep [J] and leave only well-formed requests
    on the queues if only such waited there. *)
Definition sends_well_formed (J : E -> Prop) : Prop :=
  (forall color (player_class : C) e,
     J e -> J (Process_start color player_class e)) /\
  (forall e q,
     J e -> well_formed_queues q ->
     J (peers_run e q).1 /\ well_formed_queues (peers_run e q).2).

(** C6, first part: a run of [play_multiprocessing_local_game] with the
    player processes [peers] that has come to a stop has returned, and
    has served to the end. *)
Definition keeps_serving (peers : E) : Prop :=
  forall fuel (white_player_class black_player_class : C) game
    seconds_per_player,
    let r := play_multiprocessing_local_game fuel white_player_class
               black_player_class game seconds_per_player peers in
    result r ≠ OutOfFuel ->
    exists results,
      result r = Returned results /\
      served_to_the_end (__name__ white_player_class)
        (__name__ black_player_class) results (trace r).

(** C6, as the claim has it: whatever the player processes send. *)
Definition keeps_serving_whatever_is_sent : Prop :=
  (forall peers : E, keeps_serving peers) /\ read_only_always_answered.
End ModeratorClaims.

Section DriverClaims.
Context `{Types} {G P : Type} `{!Game G, !Player P}.

(** The turns of a game: the game said it is not over, then [play_turn]
    ran for the player that [select] picks in the state of that moment. *)
Definition turns_of (select : table G P -> ref) (end_turn_last : bool)
    : list event -> Prop :=
  rounds not_over
    (fun tr => exists t, tr = trace (play_turn (select t) end_turn_last t)).

(** [players[game.turn]] of [play_local_game] *)
Definition by_turn `{!LocalGame G} (white_player black_player : ref)
    (t : table G P) : ref :=
  if turn (t_game t) then white_player else black_player.

(** C9 for [play_local_game]: both players are told of the start, turns
    are played by whose turn it is until the game says it is over, and
    both players are told of the end, with the results that are
    returned. *)
Definition local_game_played `{!LocalGame G} (white_player black_player : ref)
    (white_name black_name : Name) (results : GameResult)
    (tr : list event) : Prop :=
  exists board board' turns,
    turns_of (by_turn white_player black_player) true turns /\
    tr =
      [G_store_players white_name black_name;
       P_handle_game_start white_player WHITE board black_name;
       P_handle_game_start black_player BLACK board' white_name;
       G_start] ++
      turns ++
      [G_is_over true; G_end;
       G_get_winner_color results.1.1; G_get_win_reason results.1.2;
       G_get_game_history results.2;
       P_handle_game_end white_player results.1.1 results.1.2 results.2;
       P_handle_game_end black_player results.1.1 results.1.2 results.2].

(** C9 for [play_remote_game] and for a player process: the player is
    told of the start, plays its turns until the game says it is over,
    and is told of the end, with the results its game gave. *)
Definition own_game_played (player : ref) (results : GameResult)
    (tr : list event) : Prop :=
  exists color board opponent_name turns,
    turns_of (fun _ => player) false turns /\
    tr =
      [G_get_player_color color; G_get_starting_board board;
       G_get_opponent_name opponent_name;
       P_handle_game_start player color board opponent_name;
       G_start] ++
      turns ++
      [G_is_over true;
       G_get_winner_color results.1.1; G_get_win_reason results.1.2;
       G_get_game_history results.2;
       P_handle_game_end player results.1.1 results.1.2 results.2].
End DriverClaims.

(** ** Further properties of the drivers, as predicates on runs *)

Section TurnEngineProperties.
Context `{Types} {G P : Type} `{!Game G, !Player P}.

(** A turn for [player], event by event: the player is handed what the
    game returned and the game is given what the player chose.  The
    capture flags say whether there is a capture square, the square
    sensed is the one [choose_sense] returned and its result goes to
    [handle_sense_result], the move made is the one [choose_move]
    returned and its three results go to [handle_move_result]; there is
    no other call, and every call on a player is on [player]. *)
Definition hands_on (player : ref) (end_turn_last : bool)
    (tr : list event) : Prop :=
  exists sense_acts move_acts capture seconds square sense_result
    seconds' move requested taken capture',
    let handle_move_result :=
      P_handle_move_result player requested taken (is_not_None capture')
        capture' in
    tr =
      [G_sense_actions sense_acts; G_move_actions move_acts;
       G_opponent_move_results capture;
       P_handle_opponent_move_result player (is_not_None capture) capture;
       G_get_seconds_left seconds;
       P_choose_sense player sense_acts move_acts seconds square;
       G_sense square sense_result;
       P_handle_sense_result player sense_result;
       G_get_seconds_left seconds';
       P_choose_move player move_acts seconds' move;
       G_move move (requested, taken, capture')] ++
      (if end_turn_last then [handle_move_result; G_end_turn]
       else [G_end_turn; handle_move_result]).

(** The game is over as soon as [play_local_game] has started it on the
    players of [heap]. *)
Definition over_at_start `{!LocalGame G} (white_player black_player : ref)
    (game : option G) (seconds_per_player : Seconds) (heap : ref -> P)
    : Prop :=
  (is_over
     (start
        (store_players (class_name (heap white_player))
           (class_name (heap black_player))
           (default (LocalGame_new seconds_per_player) game)))).1 = true.

(** A game that was over at its start: the players are told of the start
    and of the end, and no turn is played in between. *)
Definition no_turn_played (white_player black_player : ref)
    (white_name black_name : Name) (r : run (table G P) GameResult) : Prop :=
  exists board board' results,
    result r = Returned results /\
    trace r =
      [G_store_players white_name black_name;
       P_handle_game_start white_player WHITE board black_name;
       P_handle_game_start black_player BLACK board' white_name;
       G_start; G_is_over true; G_end;
       G_get_winner_color results.1.1; G_get_win_reason results.1.2;
       G_get_game_history results.2;
       P_handle_game_end white_player results.1.1 results.1.2 results.2;
       P_handle_game_end black_player results.1.1 results.1.2 results.2].

(** Every turn of a trace has one sense, one move and one end of turn,
    and the game was asked once more whether it is over than turns were
    played. *)
Definition turns_counted (tr : list event) : Prop :=
  times_called c_sense tr = times_called c_move tr /\
  times_called c_end_turn tr = times_called c_move tr /\
  times_called c_sense_actions tr = times_called c_move tr /\
  times_called c_move_actions tr = times_called c_move tr /\
  times_called c_opponent_move_results tr = times_called c_move tr /\
  times_called c_is_over tr = S (times_called c_move tr).
End TurnEngineProperties.

(** A computation keeps a property of the state, whether it returns or
    not. *)
Definition preserves `{Types} {S A : Type} (I : S -> Prop) (m : M S A)
    : Prop :=
  forall s, I s -> I (final (m s)).

(** A computation makes only calls of a given kind. *)
Definition emits `{Types} {S A : Type} (Q : event -> Prop) (m : M S A)
    : Prop :=
  forall s, Forall Q (trace (m s)).

(** From a state of [I] a computation returns or is cut short by the
    fuel, and never raises nor waits; the state it leaves is one of [I]. *)
Definition goes_on `{Types} {S A : Type} (I : S -> Prop) (m : M S A)
    : Prop :=
  forall s, I s ->
    (result (m s) = OutOfFuel \/ exists a, result (m s) = Returned a) /\
    I (final (m s)).

(** A script of the small processes that holds well-formed requests
    only. *)
Definition well_formed_script (e : Toy.script) : Prop :=
  Forall (Forall (fun message =>
                    well_formed (H:=Toy.types) message.2 = true)) e.

(** A player object other than the two that play is left as it was. *)
Definition bystander (white_player black_player player : ref) : Prop :=
  player ≠ white_player /\ player ≠ black_player.

(** The methods of the game that only the color whose turn it is can have
    called on its behalf. *)
Definition turn_only_calls : list call :=
  [c_sense_actions; c_move_actions; c_opponent_move_results; c_sense; c_move;
   c_end_turn; c_get_seconds_left].

(** The calls [_respond_to_requests] can make at all: the operations on
    the queues and the eleven methods of the game in its table. *)
Definition moderator_calls : list call :=
  [c_queue_empty; c_queue_get; c_queue_put; c_sense_actions; c_move_actions;
   c_opponent_move_results; c_sense; c_move; c_end_turn; c_is_over;
   c_get_seconds_left; c_get_winner_color; c_get_win_reason;
   c_get_game_history].

Section ModeratorProperties.
Context `{Types} {G E : Type} `{!Game G, !LocalGame G}.

(** The run [r] of [poll color] from [m] took [request] off the queue and
    raised [e]: the game was not called, no response was put, and nothing
    but the queue of requests changed. *)
Definition dropped (color : Color) (request : Request) (m : moderator G E)
    (e : exn) (r : run (moderator G E) unit) : Prop :=
  result r = Raised e /\
  trace r = [Q_empty color false; Q_get color request] /\
  final r = taken color m.

(** What a gated command does on the turn of the color that sent it: the
    call on the game, the value put under the key of the command, and the
    game after the call.  [None] if [sense] or [move] comes without its
    argument, or the command is not gated. *)
Definition on_turn (request : Request) (g : G) : option (event * value * G) :=
  let command := request_command request in
  if String.eqb command "sense_actions" then
    let x := sense_actions g in Some (G_sense_actions x.1, VSquares x.1, x.2)
  else if String.eqb command "move_actions" then
    let x := move_actions g in Some (G_move_actions x.1, VMoves x.1, x.2)
  else if String.eqb command "opponent_move_results" then
    let x := opponent_move_results g in
    Some (G_opponent_move_results x.1, optional VSquare x.1, x.2)
  else if String.eqb command "sense" then
    match request_square request with
    | Some square =>
        let x := sense square g in
        Some (G_sense square x.1, VSenseResult x.1, x.2)
    | None => None
    end
  else if String.eqb command "move" then
    match request_requested_move request with
    | Some requested_move =>
        let x := move requested_move g in
        Some (G_move requested_move x.1, VMoveResult x.1, x.2)
    | None => None
    end
  else None.

(** The argument a command reads on the turn of its color, if it comes
    without it. *)
Definition missing_argument (request : Request) : option string :=
  if String.eqb (request_command request) "sense" then
    match request_square request with
    | None => Some "square"
    | Some _ => None
    end
  else if String.eqb (request_command request) "move" then
    match request_requested_move request with
    | None => Some "requested_move"
    | Some _ => None
    end
  else None.

(** The commands that are answered without a look at the game, and what
    they are answered with for a color. *)
Definition plain_answer (color : Color) (names : Name * Name)
    (command : string) : option (gmap string value) :=
  if String.eqb command "color" then Some {[ "color" := VBool color ]}
  else if String.eqb command "starting_board" then
    Some {[ "board" := VBoard chess_Board ]}
  else if String.eqb command "ready" then Some {[ "ready" := VStr "ready" ]}
  else if String.eqb command "opponent_name" then
    Some {[ "opponent_name" := VName (if color then names.1 else names.2) ]}
  else None.

(** The player processes are in a state of [J] and only well-formed
    requests wait for the moderator. *)
Definition steady (J : E -> Prop) (m : moderator G E) : Prop :=
  J (m_peers m) /\ well_formed_queues (m_queues m).

(** The queues of [color] in [m'] are those in [m] with requests taken
    from the front and responses put at the back, and nothing else. *)
Definition queues_advanced (color : Color) (m m' : moderator G E) : Prop :=
  to_player (m_queues m color) `prefix_of` to_player (m_queues m' color) /\
  to_moderator (m_queues m' color) `suffix_of` to_moderator (m_queues m color).
End ModeratorProperties.

(** * Runs of the monad *)

Section MonadFacts.
Context `{Types} {S : Type}.

(** A sequence that returned: its first part returned, and the rest ran
    from where that left off. *)
Lemma bind_returned {A B} (m : M S A) (k : A -> M S B) (s : S) (b : B) :
  result ((m ≫= k) s) = Returned b ->
  exists a,
    result (m s) = Returned a /\
    result (k a (final (m s))) = Returned b /\
    final ((m ≫= k) s) = final (k a (final (m s))) /\
    trace ((m ≫= k) s) = trace (m s) ++ trace (k a (final (m s))).
Proof.
  unfold mbind, M_bind. destruct (result (m s)) as [a| | |]; try done.
  cbn. intros Hk. by exists a.
Qed.

(** A sequence whose first part is known to return. *)
Lemma bind_trace {A B} (m : M S A) (k : A -> M S B) (s s' : S) (a : A) tr :
  m s = Run (Returned a) s' tr ->
  trace ((m ≫= k) s) = tr ++ trace (k a s').
Proof. unfold mbind, M_bind. by intros ->. Qed.

(** A sequence that returned and whose first part is known. *)
Lemma bind_known {A B} (m : M S A) (k : A -> M S B) (s s' : S) (a : A) tr
    (b : B) :
  m s = Run (Returned a) s' tr ->
  result ((m ≫= k) s) = Returned b ->
  result (k a s') = Returned b /\
  trace ((m ≫= k) s) = tr ++ trace (k a s').
Proof. unfold mbind, M_bind. by intros ->. Qed.

(** A [while] loop that returned went through rounds of a guard that
    said go on and the body, and then a guard that said stop. *)
Lemma while_returned (cond : M S bool) (body : M S unit)
    (go_on stop round : list event -> Prop) :
  (forall s, result (cond s) = Returned true -> go_on (trace (cond s))) ->
  (forall s, result (cond s) = Returned false -> stop (trace (cond s))) ->
  (forall s, round (trace (body s))) ->
  forall fuel s,
    result (while fuel cond body s) = Returned tt ->
    exists looping last,
      rounds go_on round looping /\ stop last /\
      trace (while fuel cond body s) = looping ++ last.
Proof.
  intros Hgo Hstop Hround.
  induction fuel as [|fuel IH]; intros s Hres; [done|].
  cbn [while] in *.
  apply bind_returned in Hres as (b & Hcond & Hres & _ & ->).
  destruct b.
  - apply bind_returned in Hres as (u & _ & Hres & _ & ->).
    destruct (IH _ Hres) as (looping & last & Hrounds & Hlast & ->).
    exists (trace (cond s) ++ trace (body (final (cond s))) ++ looping), last.
    split; [|split; [done|]].
    + apply rounds_more; auto.
    + by rewrite <- !app_assoc.
  - exists [], (trace (cond s)). cbn. rewrite app_nil_r.
    split; [constructor|]. auto.
Qed.

(** More fuel does not change a run that did not run out of it. *)
Lemma while_more_fuel (cond : M S bool) (body : M S unit) fuel fuel' s :
  result (while fuel cond body s) ≠ OutOfFuel ->
  fuel <= fuel' ->
  while fuel' cond body s = while fuel cond body s.
Proof.
  revert fuel' s. induction fuel as [|fuel IH]; intros fuel' s Hres Hle.
  { done. }
  destruct fuel' as [|fuel']; [lia|]. cbn [while] in *.
  unfold mbind, M_bind in *.
  destruct (result (cond s)) as [[]| | |]; try done.
  cbn [result final trace] in *.
  destruct (result (body (final (cond s)))); try done.
  cbn [result final trace] in *.
  rewrite (IH fuel'); [done| |lia].
  by destruct (result (while fuel _ _ _)).
Qed.
End MonadFacts.

(** Running the calls of a guard: every call is unfolded down to the
    method of the game, and the run it gives is read off. *)
Ltac run_calls :=
  unfold game_is_over, method, procedure, attribute, mbind, M_bind, mret,
    M_ret in *;
  cbn [result final trace the_game with_game table_holds moderator_holds
       t_game t_players m_game m_queues m_player_names m_peers app fst snd]
    in *.

(** One step into a sequence that returned, [Hres], when the run of its
    first part can be read off: the events of that part are put in the
    trace of the goal, and [Hres] is left about the rest. *)
Ltac known Hres :=
  match type of Hres with
  | result ((?m ≫= ?k) ?s) = _ =>
      let H := fresh in
      let Htr := fresh in
      epose proof (bind_known m k s _ _ _ _ eq_refl Hres) as [H Htr];
      clear Hres; rename H into Hres;
      rewrite Htr; clear Htr; cbv beta in Hres |- *;
      cbn [the_game with_game table_holds moderator_holds t_game t_players
           m_game m_queues m_player_names m_peers fst snd] in Hres |- *
  end.

(** The end of a sequence that returned: [mret]. *)
Ltac returned Hres :=
  unfold mret, M_ret in Hres |- *; cbn [result trace] in Hres |- *;
  injection Hres as <-.

(** One step into a sequence that returned, whatever its first part. *)
Ltac unknown Hres Ha :=
  let a := fresh "a" in
  let Htr := fresh in
  apply bind_returned in Hres as (a & Ha & Hres & _ & Htr);
  rewrite Htr; clear Htr.

(** * The turn engine *)

Section TurnEngineFacts.
Context `{Types} {G P : Type} `{!Game G, !Player P}.

(** Every step of a turn returns: the turn engine itself neither raises
    nor waits. *)
Lemma play_turn_returns player end_turn_last (t : table G P) :
  result (play_turn player end_turn_last t) = Returned tt.
Proof. destruct end_turn_last; reflexivity. Qed.

(** The calls of a turn, in order. *)
Lemma play_turn_calls player end_turn_last (t : table G P) :
  calls (trace (play_turn player end_turn_last t)) =
    [c_sense_actions; c_move_actions; c_opponent_move_results;
     c_handle_opponent_move_result; c_get_seconds_left; c_choose_sense;
     c_sense; c_handle_sense_result; c_get_seconds_left; c_choose_move;
     c_move] ++
    (if end_turn_last then [c_handle_move_result; c_end_turn]
     else [c_end_turn; c_handle_move_result]).
Proof. destruct end_turn_last; reflexivity. Qed.

(** The events of a turn, in order, with what flows from call to call. *)
Lemma play_turn_trace player end_turn_last (t : table G P) :
  exists capture seconds square sense_result seconds' move move_result,
    let sense_acts := (sense_actions (t_game t)).1 in
    let move_acts := (move_actions (sense_actions (t_game t)).2).1 in
    let handle_move_result :=
      P_handle_move_result player move_result.1.1 move_result.1.2
        (is_not_None move_result.2) move_result.2 in
    trace (play_turn player end_turn_last t) =
      [G_sense_actions sense_acts; G_move_actions move_acts;
       G_opponent_move_results capture;
       P_handle_opponent_move_result player (is_not_None capture) capture;
       G_get_seconds_left seconds;
       P_choose_sense player sense_acts move_acts seconds square;
       G_sense square sense_result;
       P_handle_sense_result player sense_result;
       G_get_seconds_left seconds';
       P_choose_move player move_acts seconds' move;
       G_move move move_result] ++
      (if end_turn_last then [handle_move_result; G_end_turn]
       else [G_end_turn; handle_move_result]).
Proof. do 7 eexists. destruct end_turn_last; lazy; reflexivity. Qed.

(** C1, as the code has it.  [play_turn] first asks the game for the
    sense actions and then for the move actions; only then does it ask
    for the opponent's move results, which it hands to the player at
    once.  None of the four calls is made again in the rest of the turn,
    and [choose_sense] is in that rest. *)
Theorem play_turn_queries_actions_then_notifies
    player end_turn_last (t : table G P) :
  exists sense_acts move_acts square rest,
    trace (play_turn player end_turn_last t) =
      G_sense_actions sense_acts :: G_move_actions move_acts ::
      G_opponent_move_results square ::
      P_handle_opponent_move_result player (is_not_None square) square ::
      rest /\
    Forall (fun e => call_of e ∉
              [c_sense_actions; c_move_actions; c_opponent_move_results;
               c_handle_opponent_move_result]) rest /\
    c_choose_sense ∈ calls rest.
Proof.
  destruct (play_turn_trace player end_turn_last t)
    as (capture & s & sq & sr & s' & mv & r & ->).
  do 4 eexists. split; [reflexivity|]. split.
  - destruct end_turn_last; cbn;
      repeat (constructor; [by apply (bool_decide_unpack _)|]);
      constructor.
  - by apply (bool_decide_unpack _).
Qed.


End TurnEngineFacts.


(** * The moderator *)

Section ModeratorFacts.
Context `{Types} {G E : Type} `{!Game G, !LocalGame G}.

Implicit Types (m : moderator G E) (color : Color) (request : Request).

(** [poll] on a queue with a request: the request is taken and
    [respond] runs on it. *)
Lemma poll_pending color request m :
  pending color request m ->
  let r := respond color request (taken color m) in
  poll color m =
    Run (result r) (final r)
      ([Q_empty color false; Q_get color request] ++ trace r).
Proof.
  unfold pending. intros Hhead.
  assert (queue_empty color m = Run (Returned false) m [Q_empty color false])
    as Hempty.
  { unfold queue_empty.
    by destruct (to_moderator (m_queues m color)). }
  assert (queue_get color m =
            Run (Returned request) (taken color m) [Q_get color request])
    as Hget.
  { unfold queue_get, taken.
    destruct (to_moderator (m_queues m color)); [done|].
    cbn in Hhead. by injection Hhead as ->. }
  unfold poll, mbind, M_bind. rewrite Hempty. cbn. rewrite Hget. cbn.
  by destruct (result _).
Qed.

(** [poll] on an empty queue asks and does nothing else. *)
Lemma poll_idle color m :
  to_moderator (m_queues m color) = [] ->
  poll color m = Run (Returned tt) m [Q_empty color true].
Proof.
  unfold poll, mbind, M_bind, queue_empty. cbn. by intros ->.
Qed.

(** [respond] runs the closure that [responses] holds for the command. *)
Lemma respond_dispatch color request m (k : M (moderator G E) unit) :
  responses color request (Bool.eqb (turn (m_game m)) color)
    !! request_command request = Some k ->
  result (respond color request m) = result (k m) /\
  final (respond color request m) = final (k m) /\
  trace (respond color request m) = trace (k m).
Proof.
  intros Hk. unfold respond, mbind, M_bind, game_turn, attribute.
  cbn [result final trace the_game moderator_holds].
  rewrite Hk. by destruct (result (k m)).
Qed.

Lemma taken_game color m : m_game (taken color m) = m_game m.
Proof. done. Qed.

Lemma taken_queue color m :
  m_queues (taken color m) color =
    Channel (to_player (m_queues m color))
      (tail (to_moderator (m_queues m color))).
Proof. unfold taken. cbn. by rewrite fn_lookup_insert. Qed.

Lemma taken_queue_other color color' m :
  color ≠ color' -> m_queues (taken color m) color' = m_queues m color'.
Proof. intros. unfold taken. cbn. by rewrite fn_lookup_insert_ne. Qed.

(** Running a closure of the table: the calls are unfolded down to the
    functions of the game, the queue updates are kept. *)
Ltac run_closure :=
  unfold answer, queue_put, square_of, requested_move_of, game_player_names,
    game_sense_actions, game_move_actions, game_get_seconds_left,
    game_seconds_left_by_color, game_is_over, game_opponent_move_results,
    game_sense, game_move, game_end_turn, game_get_winner_color,
    game_get_win_reason, game_get_game_history, method, procedure,
    attribute, raise, mbind, M_bind, mret, M_ret;
  cbn [result final trace the_game with_game moderator_holds with_queues
       m_game m_queues m_player_names m_peers app fst snd];
  rewrite ?taken_game, ?fn_lookup_insert, ?taken_queue;
  cbn [to_player to_moderator].

(** Taking the request [request] off the queue of [color] and running
    the closure of its command, given by the equation [Hcommand]. *)
Ltac serve Hp Hcommand Hturn :=
  rewrite (poll_pending _ _ _ Hp); cbv zeta;
  unfold served; cbn [result final trace];
  match goal with
  | |- context [respond ?color ?request (taken ?color ?m)] =>
      let Hk := fresh in
      edestruct (respond_dispatch color request (taken color m))
        as (-> & -> & ->);
      [ rewrite Hcommand, taken_game, Hturn; reflexivity | ]
  end;
  run_closure.

(** C2.  A gated command ([sense_actions], [move_actions],
    [opponent_move_results], [sense], [move]) from the color whose turn
    it is not is answered with [None] under the key of the command; no
    method of the game is called for it, so neither [game.sense] nor
    [game.move] nor [game.end_turn], and the game is as it was. *)
Theorem gated_command_off_turn_not_available color request m :
  pending color request m ->
  request_command request ∈ gated_commands ->
  turn (m_game m) ≠ color ->
  not_available color request m (poll color m).
Proof.
  intros Hp Hgated Hturn.
  assert (Bool.eqb (turn (m_game m)) color = false) as Hoff.
  { by destruct (turn (m_game m)), color. }
  unfold not_available, gated_commands in *.
  repeat (apply elem_of_cons in Hgated as [Hc|Hgated]);
    [..|by apply elem_of_nil in Hgated];
    serve Hp Hc Hoff; by rewrite Hc.
Qed.

(** C3, as the code has it.  The [is_my_turn] command is answered with
    true if it is the turn of the color or, asked only then, the game
    says it is over.  The [game_status] command is answered with whether
    the game is over under ['is_over'], and under ['is_my_turn'] with
    whether it is the turn of the color, over or not. *)
Theorem is_my_turn_and_game_status color request m :
  pending color request m ->
  request_command request ∈ ["is_my_turn"; "game_status"] ->
  turn_reported color request m (poll color m).
Proof.
  intros Hp Hcommand. unfold turn_reported. cbv zeta.
  destruct (Bool.eqb (turn (m_game m)) color) eqn:Hturn;
    repeat (apply elem_of_cons in Hcommand as [Hc|Hcommand]);
    [left|right|by apply elem_of_nil in Hcommand
    |left|right|by apply elem_of_nil in Hcommand];
    (split; [done|]); by serve Hp Hc Hturn.
Qed.

(** C7.  The [seconds_left] command is answered, on the turn of the
    color, with what [game.get_seconds_left()] returns; off its turn,
    with the entry of the color itself in [game.seconds_left_by_color],
    and [game.get_seconds_left()], the clock of the opponent then, is
    not called. *)
Theorem seconds_left_is_own_clock color request m :
  pending color request m ->
  request_command request = "seconds_left" ->
  clock_reported color request m (poll color m).
Proof.
  intros Hp Hc. unfold clock_reported.
  destruct (Bool.eqb (turn (m_game m)) color) eqn:Hturn;
    by serve Hp Hc Hturn.
Qed.

(** C8.  The [end_turn] command, on the turn of the color, calls
    [game.end_turn()] and then answers ['done']; off its turn it answers
    [None] and does not call the game, so the turn stays. *)
Theorem end_turn_only_on_own_turn color request m :
  pending color request m ->
  request_command request = "end_turn" ->
  turn_ended color request m (poll color m).
Proof.
  intros Hp Hc. unfold turn_ended.
  destruct (Bool.eqb (turn (m_game m)) color) eqn:Hturn;
    by serve Hp Hc Hturn.
Qed.

(** Any request the player processes can send is answered: [poll]
    returns, with one response that fits the command put on the queue
    of the color and nothing done on the queues of the other color. *)
Lemma poll_answers color request m :
  pending color request m ->
  well_formed request = true ->
  let r := poll color m in
  exists response,
    m_queues (final r) color =
      Channel (to_player (m_queues m color) ++ [response])
        (tail (to_moderator (m_queues m color))) /\
    m_queues (final r) (negb color) = m_queues m (negb color) /\
    result r = Returned tt /\
    queue_events color (trace r) =
      [Q_empty color false; Q_get color request; Q_put color response] /\
    queue_events (negb color) (trace r) = [] /\
    answers (request_command request) response.
Proof.
  intros Hp Hwf. cbv zeta.
  rewrite (poll_pending _ _ _ Hp). cbv zeta. cbn [result final trace].
  unfold well_formed in Hwf.
  apply andb_prop in Hwf as [Hwf Hmove]. apply andb_prop in Hwf as [Hc Hsense].
  apply bool_decide_eq_true in Hc. unfold commands in Hc.
  assert (color ≠ negb color) as Hother by (by destruct color).
  destruct (Bool.eqb (turn (m_game m)) color) eqn:Hturn;
    repeat (apply elem_of_cons in Hc as [Hc|Hc]);
    try (by apply elem_of_nil in Hc);
    rewrite Hc in Hsense, Hmove; cbn in Hsense, Hmove;
    try (destruct (request_square request) as [square|] eqn:Hsquare;
         [clear Hsense|done]);
    try (destruct (request_requested_move request) as [requested|] eqn:Hreq;
         [clear Hmove|done]);
    (edestruct (respond_dispatch color request (taken color m))
       as (-> & -> & ->);
     [ rewrite Hc, taken_game, Hturn; reflexivity | ]);
    run_closure; rewrite ?Hsquare, ?Hreq; run_closure;
    eexists; (split; [reflexivity|]);
    rewrite Hc;
    (split; [by rewrite ?fn_lookup_insert_ne, taken_queue_other by done|]);
    (split; [done|]);
    (split; [by destruct color|]);
    (split; [by destruct color|]);
    cbn; try done; set_solver.
Qed.

(** One [poll]: it returns, leaves the queues of the other color alone,
    and on the queues of its color does what [polled_once] says. *)
Lemma poll_once color m :
  (forall request, pending color request m -> well_formed request = true) ->
  let r := poll color m in
  result r = Returned tt /\
  m_queues (final r) (negb color) = m_queues m (negb color) /\
  queue_events (negb color) (trace r) = [] /\
  match head (to_moderator (m_queues m color)) with
  | Some request =>
      exists response,
        answers (request_command request) response /\
        queue_events color (trace r) =
          [Q_empty color false; Q_get color request; Q_put color response] /\
        m_queues (final r) color =
          Channel (to_player (m_queues m color) ++ [response])
            (tail (to_moderator (m_queues m color)))
  | None =>
      queue_events color (trace r) = [Q_empty color true] /\
      m_queues (final r) color = m_queues m color
  end.
Proof.
  intros Hwf. cbv zeta.
  destruct (head (to_moderator (m_queues m color))) as [request|] eqn:Hhead.
  - destruct (poll_answers color request m Hhead (Hwf _ Hhead))
      as (response & Hq & Hframe & Hres & Hev & Hev' & Hans).
    repeat split; try done. by exists response.
  - rewrite poll_idle by (by destruct (to_moderator (m_queues m color))).
    cbn. by destruct color.
Qed.


(** A read-only command is answered with what the game returns,
    whoever's turn it is and whether or not the game is over. *)
Lemma poll_read_only color request m :
  pending color request m ->
  request_command request ∈ read_only_commands ->
  exists e response,
    read_only_answer (request_command request) e = Some response /\
    result (poll color m) = Returned tt /\
    trace (poll color m) =
      [Q_empty color false; Q_get color request; e; Q_put color response].
Proof.
  intros Hp Hcommand. unfold read_only_commands in Hcommand.
  rewrite (poll_pending _ _ _ Hp). cbv zeta. cbn [result final trace].
  destruct (Bool.eqb (turn (m_game m)) color) eqn:Hturn;
    repeat (apply elem_of_cons in Hcommand as [Hc|Hcommand]);
    try (by apply elem_of_nil in Hcommand);
    (edestruct (respond_dispatch color request (taken color m))
       as (-> & _ & ->);
     [ rewrite Hc, taken_game, Hturn; reflexivity | ]);
    run_closure; rewrite Hc; do 2 eexists; (split; [|done]); reflexivity.
Qed.

(** C6, second part, for one round. *)
Lemma round_read_only color request m :
  (forall c q, pending c q m -> well_formed q = true) ->
  pending color request m ->
  request_command request ∈ read_only_commands ->
  read_only_answered color request (_respond_to_requests m).
Proof.
  intros Hwf Hp Hcommand.
  destruct (poll_once WHITE m (Hwf WHITE)) as (Hres1 & Hframe1 & _).
  change (negb WHITE) with BLACK in Hframe1.
  assert (forall q, pending BLACK q (final (poll WHITE m)) ->
                    pending BLACK q m) as Hsame.
  { intros q. unfold pending. by rewrite Hframe1. }
  destruct (poll_once BLACK (final (poll WHITE m))) as (Hres2 & _).
  { intros q Hq. apply (Hwf BLACK), Hsame, Hq. }
  unfold read_only_answered, _respond_to_requests, COLORS.
  cbn [for_each]. unfold mbind, M_bind.
  rewrite Hres1. cbn [result final trace]. rewrite Hres2.
  cbn [result final trace mret M_ret]. split; [done|].
  unfold WHITE, BLACK in *. destruct color.
  - destruct (poll_read_only _ _ _ Hp Hcommand)
      as (e & response & Hanswer & _ & ->).
    by exists [Q_empty true false], e, response,
      (trace (poll false (final (poll true m))) ++ []).
  - assert (pending false request (final (poll true m))) as Hp'.
    { unfold pending. by rewrite Hframe1. }
    destruct (poll_read_only _ _ _ Hp' Hcommand)
      as (e & response & Hanswer & _ & ->).
    exists (trace (poll true m) ++ [Q_empty false false]), e, response, [].
    split; [done|]. by rewrite <- !app_assoc.
Qed.

Context {C : Type} `{!Peers E C}.

(** The guards of the two loops of [play_multiprocessing_local_game]. *)
Lemma playing_go_on m :
  result ((yield;; over ← game_is_over; mret (negb over)) m)
    = Returned true ->
  not_over (trace ((yield;; over ← game_is_over; mret (negb over)) m)).
Proof.
  intros Hcond. unfold not_over, yield in *. run_calls.
  injection Hcond as Hover. apply negb_true_iff in Hover. by rewrite Hover.
Qed.

Lemma playing_stop m :
  result ((yield;; over ← game_is_over; mret (negb over)) m)
    = Returned false ->
  trace ((yield;; over ← game_is_over; mret (negb over)) m)
    = [G_is_over true].
Proof.
  intros Hcond. unfold yield in *. run_calls.
  injection Hcond as Hover. apply negb_false_iff in Hover. by rewrite Hover.
Qed.

Lemma draining_go_on m :
  result
    ((yield;;
      black_alive ← process_is_alive BLACK;
      white_alive ← process_is_alive WHITE;
      mret (black_alive || white_alive)) m) = Returned true ->
  some_alive
    (trace
       ((yield;;
         black_alive ← process_is_alive BLACK;
         white_alive ← process_is_alive WHITE;
         mret (black_alive || white_alive)) m)).
Proof.
  intros Hcond. unfold some_alive, yield, process_is_alive in *. run_calls.
  injection Hcond as Halive. by do 2 eexists.
Qed.

Lemma draining_stop m :
  result
    ((yield;;
      black_alive ← process_is_alive BLACK;
      white_alive ← process_is_alive WHITE;
      mret (black_alive || white_alive)) m) = Returned false ->
  trace
    ((yield;;
      black_alive ← process_is_alive BLACK;
      white_alive ← process_is_alive WHITE;
      mret (black_alive || white_alive)) m)
    = [Proc_is_alive BLACK false; Proc_is_alive WHITE false].
Proof.
  intros Hcond. unfold yield, process_is_alive in *. run_calls.
  injection Hcond as Halive. apply orb_false_elim in Halive as [-> ->].
  done.
Qed.

(** C6, first part. *)
Lemma play_multiprocessing_local_game_shape fuel
    (white_player_class black_player_class : C) game seconds_per_player
    (peers : E) results :
  let r := play_multiprocessing_local_game fuel white_player_class
             black_player_class game seconds_per_player peers in
  result r = Returned results ->
  served_to_the_end (G:=G) (E:=E) (__name__ white_player_class)
    (__name__ black_player_class) results (trace r).
Proof.
  unfold play_multiprocessing_local_game. cbv zeta. intros Hres.
  do 4 known Hres. unknown Hres Hplaying. destruct a.
  eapply (while_returned _ _ not_over (fun tr => tr = [G_is_over true])
            a_round)
    in Hplaying as (playing & ? & Hplaying & -> & ->);
    [|apply playing_go_on|apply playing_stop|by intros s; exists s].
  set (m' := final (while _ _ _ _)) in *. clearbody m'.
  known Hres. unknown Hres Hdraining. destruct a.
  eapply (while_returned _ _ some_alive
            (fun tr => tr = [Proc_is_alive BLACK false;
                             Proc_is_alive WHITE false]) a_round)
    in Hdraining as (draining & ? & Hdraining & -> & ->);
    [|apply draining_go_on|apply draining_stop|by intros s; exists s].
  set (m'' := final (while _ _ _ _)) in *. clearbody m''.
  do 3 known Hres. returned Hres.
  exists playing, draining. split; [done|]. split; [done|].
  rewrite <- !app_assoc. reflexivity.
Qed.
End ModeratorFacts.

(** * The whole-game drivers *)

Section DriverFacts.
Context `{Types} {G P : Type} `{!Game G, !Player P}.

Implicit Types (t : table G P) (player : ref).

(** The guard of the loops of the drivers. *)
Lemma guard_go_on t :
  result ((over ← game_is_over; mret (negb over)) t) = Returned true ->
  not_over (trace ((over ← game_is_over; mret (negb over)) t)).
Proof.
  intros Hcond. unfold not_over. run_calls. injection Hcond as Hover.
  apply negb_true_iff in Hover. by rewrite Hover.
Qed.

Lemma guard_stop t :
  result ((over ← game_is_over; mret (negb over)) t) = Returned false ->
  trace ((over ← game_is_over; mret (negb over)) t) = [G_is_over true].
Proof.
  intros Hcond. run_calls. injection Hcond as Hover.
  apply negb_false_iff in Hover. by rewrite Hover.
Qed.

(** The body of the loop of [play_local_game]. *)
Lemma body_local `{!LocalGame G} white_player black_player t :
  trace
    ((turn ← game_turn;
      play_turn (nth (Nat.b2n turn) [black_player; white_player]
                   black_player) true) t) =
  trace (play_turn (by_turn white_player black_player t) true t).
Proof.
  rewrite (bind_trace game_turn _ t t (turn (t_game t)) []) by reflexivity.
  unfold by_turn. rewrite app_nil_l. by destruct (turn (t_game t)).
Qed.

(** The loop of [play_local_game]. *)
Lemma local_turns `{!LocalGame G} fuel white_player black_player t :
  result
    (while fuel (over ← game_is_over; mret (negb over))
       (turn ← game_turn;
        play_turn (nth (Nat.b2n turn) [black_player; white_player]
                     black_player) true) t) = Returned tt ->
  exists turns,
    turns_of (by_turn white_player black_player) true turns /\
    trace
      (while fuel (over ← game_is_over; mret (negb over))
         (turn ← game_turn;
          play_turn (nth (Nat.b2n turn) [black_player; white_player]
                       black_player) true) t) =
      turns ++ [G_is_over true].
Proof.
  intros Hres.
  eapply (while_returned _ _ not_over (fun tr => tr = [G_is_over true]))
    in Hres as (turns & last & Hturns & -> & ->).
  - by exists turns.
  - apply guard_go_on.
  - apply guard_stop.
  - intros s. exists s. apply body_local.
Qed.

(** The loop of the drivers of one player. *)
Lemma own_turns fuel player t :
  result
    (while fuel (over ← game_is_over; mret (negb over))
       (play_turn player false) t) = Returned tt ->
  exists turns,
    turns_of (fun _ => player) false turns /\
    trace
      (while fuel (over ← game_is_over; mret (negb over))
         (play_turn player false) t) =
      turns ++ [G_is_over true].
Proof.
  intros Hres.
  eapply (while_returned _ _ not_over (fun tr => tr = [G_is_over true]))
    in Hres as (turns & last & Hturns & -> & ->).
  - by exists turns.
  - apply guard_go_on.
  - apply guard_stop.
  - intros s. by exists s.
Qed.

Lemma play_local_game_shape `{!LocalGame G} fuel white_player black_player
    game seconds_per_player heap results :
  let r := play_local_game fuel white_player black_player game
             seconds_per_player heap in
  result r = Returned results ->
  local_game_played white_player black_player
    (class_name (heap white_player)) (class_name (heap black_player))
    results (trace r).
Proof.
  unfold play_local_game. cbv zeta. intros Hres.
  do 8 known Hres. unknown Hres Hloop. destruct a.
  destruct (local_turns _ _ _ _ Hloop) as (turns & Hturns & ->).
  clear Hloop. set (t' := final (while _ _ _ _)) in *. clearbody t'.
  do 4 known Hres. returned Hres.
  unfold local_game_played. do 2 eexists. exists turns. split; [done|].
  rewrite <- !app_assoc. reflexivity.
Qed.

Lemma play_remote_game_shape `{!RemoteGame G} fuel player t results :
  result (play_remote_game fuel player t) = Returned results ->
  own_game_played player results (trace (play_remote_game fuel player t)).
Proof.
  unfold play_remote_game. intros Hres.
  do 5 known Hres. unknown Hres Hloop. destruct a.
  destruct (own_turns _ _ _ Hloop) as (turns & Hturns & ->).
  clear Hloop. set (t' := final (while _ _ _ _)) in *. clearbody t'.
  do 2 known Hres. returned Hres.
  unfold own_game_played. do 3 eexists. exists turns. split; [done|].
  rewrite <- !app_assoc. reflexivity.
Qed.

Lemma play_in_multiprocessing_local_game_shape `{!RemoteGame G}
    fuel player t :
  result (_play_in_multiprocessing_local_game fuel player t) = Returned tt ->
  exists results,
    own_game_played player results
      (trace (_play_in_multiprocessing_local_game fuel player t)).
Proof.
  unfold _play_in_multiprocessing_local_game. intros Hres.
  do 5 known Hres. unknown Hres Hloop. destruct a.
  destruct (own_turns _ _ _ Hloop) as (turns & Hturns & ->).
  clear Hloop. set (t' := final (while _ _ _ _)) in *. clearbody t'.
  known Hres.
  exists ((get_winner_color (t_game t')).1,
          (get_win_reason (get_winner_color (t_game t')).2).1,
          (get_game_history
             (get_win_reason (get_winner_color (t_game t')).2).2).1).
  unfold own_game_played. do 3 eexists. exists turns. split; [done|].
  rewrite <- !app_assoc. reflexivity.
Qed.

End DriverFacts.

(** * Further facts on runs *)

Section MoreMonadFacts.
Context `{Types} {S : Type}.

Lemma bind_result {A B} (m : M S A) (k : A -> M S B) (s s' : S) (a : A) tr :
  m s = Run (Returned a) s' tr ->
  result ((m ≫= k) s) = result (k a s').
Proof. unfold mbind, M_bind. by intros ->. Qed.

Lemma bind_final {A B} (m : M S A) (k : A -> M S B) (s s' : S) (a : A) tr :
  m s = Run (Returned a) s' tr ->
  final ((m ≫= k) s) = final (k a s').
Proof. unfold mbind, M_bind. by intros ->. Qed.

(** A loop whose guard says stop at once. *)
Lemma while_stops (cond : M S bool) (body : M S unit) fuel s :
  result (cond s) = Returned false ->
  result (while (Datatypes.S fuel) cond body s) = Returned tt /\
  final (while (Datatypes.S fuel) cond body s) = final (cond s) /\
  trace (while (Datatypes.S fuel) cond body s) = trace (cond s).
Proof.
  intros Hcond. cbn [while]. unfold mbind, M_bind. rewrite Hcond.
  cbn. by rewrite app_nil_r.
Qed.

Lemma while_stops_run (cond : M S bool) (body : M S unit) fuel s s' tr :
  cond s = Run (Returned false) s' tr ->
  while (Datatypes.S fuel) cond body s = Run (Returned tt) s' (tr ++ []).
Proof. intros Hcond. cbn [while]. unfold mbind, M_bind. by rewrite Hcond. Qed.

(** Two sequences with the same first part and rests that make the same
    calls and leave the same state. *)
Lemma bind_same {A B B'} (m : M S A) (k : A -> M S B) (k' : A -> M S B') s :
  (forall a s', trace (k a s') = trace (k' a s') /\
                final (k a s') = final (k' a s')) ->
  trace ((m ≫= k) s) = trace ((m ≫= k') s) /\
  final ((m ≫= k) s) = final ((m ≫= k') s).
Proof.
  intros Hk. unfold mbind, M_bind.
  destruct (result (m s)) as [a| | |]; [|done..].
  destruct (Hk a (final (m s))) as [Htrace Hfinal].
  cbn [trace final]. by rewrite Htrace, Hfinal.
Qed.

Lemma bind_mret_same {A B} (m : M S A) (x : B) s :
  trace (m s) = trace ((m ≫= fun _ => mret x) s) /\
  final (m s) = final ((m ≫= fun _ => mret x) s).
Proof.
  unfold mbind, M_bind, mret, M_ret.
  destruct (result (m s)); [|done..]. cbn. by rewrite app_nil_r.
Qed.

(** [preserves] and [emits] go through sequences and loops. *)
Lemma preserves_bind {A B} (I : S -> Prop) (m : M S A) (k : A -> M S B) :
  preserves I m -> (forall a, preserves I (k a)) -> preserves I (m ≫= k).
Proof.
  intros Hm Hk s Hs. unfold mbind, M_bind.
  specialize (Hm s Hs).
  destruct (result (m s)) as [a| | |]; [|done..].
  cbn [final]. by apply Hk.
Qed.

Lemma preserves_mret {A} (I : S -> Prop) (a : A) : preserves I (mret a).
Proof. by intros s Hs. Qed.

Lemma preserves_raise {A} (I : S -> Prop) e : preserves I (raise (A:=A) e).
Proof. by intros s Hs. Qed.

Lemma preserves_while (I : S -> Prop) cond body fuel :
  preserves I cond -> preserves I body -> preserves I (while fuel cond body).
Proof.
  intros Hcond Hbody. induction fuel as [|fuel IH]; [by intros s Hs|].
  cbn [while]. apply preserves_bind; [done|]. intros [].
  - by apply preserves_bind.
  - apply preserves_mret.
Qed.

Lemma emits_bind {A B} (Q : event -> Prop) (m : M S A) (k : A -> M S B) :
  emits Q m -> (forall a, emits Q (k a)) -> emits Q (m ≫= k).
Proof.
  intros Hm Hk s. unfold mbind, M_bind.
  specialize (Hm s).
  destruct (result (m s)) as [a| | |]; [|done..].
  cbn [trace]. apply Forall_app. split; [done|]. apply Hk.
Qed.

Lemma emits_mret {A} (Q : event -> Prop) (a : A) : emits (S:=S) Q (mret a).
Proof. intros s. constructor. Qed.

Lemma emits_raise {A} (Q : event -> Prop) e : emits (S:=S) Q (raise (A:=A) e).
Proof. intros s. constructor. Qed.

Lemma emits_while (Q : event -> Prop) cond body fuel :
  emits Q cond -> emits Q body -> emits (S:=S) Q (while fuel cond body).
Proof.
  intros Hcond Hbody. induction fuel as [|fuel IH]; [intros s; constructor|].
  cbn [while]. apply emits_bind; [done|]. intros [].
  - by apply emits_bind.
  - apply emits_mret.
Qed.

(** Counting calls in a trace made of parts. *)
Lemma times_called_app c (tr tr' : list event) :
  times_called c (tr ++ tr') = times_called c tr + times_called c tr'.
Proof.
  unfold times_called, calls.
  by rewrite fmap_app, list.filter_app, length_app.
Qed.

Lemma times_called_cons c (e : event) tr :
  times_called c (e :: tr) =
  (if bool_decide (call_of e = c) then 1 else 0) + times_called c tr.
Proof.
  unfold times_called, calls. rewrite fmap_cons, list.filter_cons.
  by case_bool_decide; destruct (decide _).
Qed.

Lemma times_called_nil c : times_called c (@nil event) = 0.
Proof. done. Qed.
End MoreMonadFacts.

(** Counting the calls of a trace that is written out. *)
Ltac count_calls :=
  rewrite ?times_called_app, ?times_called_cons, ?times_called_nil;
  cbn [call_of];
  repeat first
    [ rewrite bool_decide_eq_false_2 by discriminate
    | rewrite bool_decide_eq_true_2 by reflexivity ].

(** * Further properties of the turn engine *)

(** Membership in a list that is written out. *)
Ltac listed :=
  repeat first [apply list_elem_of_here | apply list_elem_of_further].

Section TurnEngineProperties.
Context `{Types} {G P : Type} `{!Game G, !Player P}.

Implicit Types (t : table G P) (player : ref).


Lemma play_turn_frame player player' end_turn_last t :
  player' ≠ player ->
  t_players (final (play_turn player end_turn_last t)) player' =
  t_players t player'.
Proof.
  intros Hother. destruct end_turn_last; lazy -[insert fn_insert];
    by rewrite !fn_lookup_insert_ne.
Qed.

(** X2.  A player process makes the calls of [play_remote_game], in the
    same order and with the same data, and leaves its game and its player
    in the same state; it only does not return the results. *)
Theorem player_process_mimics_play_remote_game `{!RemoteGame G}
    fuel player t :
  trace (_play_in_multiprocessing_local_game fuel player t) =
  trace (play_remote_game fuel player t) /\
  final (_play_in_multiprocessing_local_game fuel player t) =
  final (play_remote_game fuel player t).
Proof.
  unfold _play_in_multiprocessing_local_game, play_remote_game.
  repeat (apply bind_same; intros). apply bind_mret_same.
Qed.

(** The guard of the loops of the drivers when the game is over. *)
Lemma guard_over t :
  (is_over (t_game t)).1 = true ->
  (over ← game_is_over; mret (negb over)) t =
  Run (Returned false) (with_game (is_over (t_game t)).2 t) [G_is_over true].
Proof. intros Hover. run_calls. by rewrite Hover. Qed.


(** The calls of one turn, counted. *)
Lemma play_turn_counts player end_turn_last t c :
  c ∈ [c_sense; c_move; c_end_turn; c_sense_actions; c_move_actions;
       c_opponent_move_results] ->
  times_called c (trace (play_turn player end_turn_last t)) = 1 /\
  times_called c_is_over (trace (play_turn player end_turn_last t)) = 0.
Proof.
  intros Hc. unfold times_called. rewrite play_turn_calls.
  repeat (apply elem_of_cons in Hc as [->|Hc]);
    try (by apply elem_of_nil in Hc); by destruct end_turn_last.
Qed.

(** The calls of the turns of a game, counted. *)
Lemma turns_counts select end_turn_last turns c :
  turns_of select end_turn_last turns ->
  c ∈ [c_sense; c_move; c_end_turn; c_sense_actions; c_move_actions;
       c_opponent_move_results] ->
  times_called c turns = times_called c_is_over turns.
Proof.
  intros Hturns Hc. induction Hturns as [|g b rest Hg [t' ->] _ IH]; [done|].
  rewrite Hg, !times_called_app.
  destruct (play_turn_counts (select t') end_turn_last t' c Hc) as [-> ->].
  rewrite IH. assert (c ≠ c_is_over) as Hne.
  { intros ->.
    repeat (apply elem_of_cons in Hc as [Hc'|Hc]; [discriminate Hc'|]).
    by apply elem_of_nil in Hc. }
  unfold times_called at 1 3. cbn.
  rewrite decide_False by done. by rewrite decide_True by done.
Qed.

(** X4.  A game that [play_local_game] or [play_remote_game] played to
    its end had as many senses, moves, ends of turn, queries of the sense
    actions, of the move actions and of the opponent's move results as
    each other, one of each per turn, and the game was asked whether it is
    over once more than that. *)
Theorem whole_game_calls_counted `{!LocalGame G, !RemoteGame G} :
  (forall fuel white_player black_player game seconds_per_player heap
     results,
     let r := play_local_game fuel white_player black_player game
                seconds_per_player heap in
     result r = Returned results -> turns_counted (trace r)) /\
  (forall fuel player t results,
     result (play_remote_game fuel player t) = Returned results ->
     turns_counted (trace (play_remote_game fuel player t))).
Proof.
  split.
  - intros * Hres.
    destruct (play_local_game_shape _ _ _ _ _ _ _ Hres)
      as (board & board' & turns & Hturns & Htrace).
    subst r. rewrite Htrace. unfold turns_counted. count_calls.
    rewrite (turns_counts _ _ _ c_sense Hturns) by listed.
    rewrite (turns_counts _ _ _ c_move Hturns) by listed.
    rewrite (turns_counts _ _ _ c_end_turn Hturns) by listed.
    rewrite (turns_counts _ _ _ c_sense_actions Hturns) by listed.
    rewrite (turns_counts _ _ _ c_move_actions Hturns) by listed.
    rewrite (turns_counts _ _ _ c_opponent_move_results Hturns) by listed.
    lia.
  - intros * Hres.
    destruct (play_remote_game_shape _ _ _ _ Hres)
      as (color & board & name & turns & Hturns & Htrace).
    rewrite Htrace. unfold turns_counted. count_calls.
    rewrite (turns_counts _ _ _ c_sense Hturns) by listed.
    rewrite (turns_counts _ _ _ c_move Hturns) by listed.
    rewrite (turns_counts _ _ _ c_end_turn Hturns) by listed.
    rewrite (turns_counts _ _ _ c_sense_actions Hturns) by listed.
    rewrite (turns_counts _ _ _ c_move_actions Hturns) by listed.
    rewrite (turns_counts _ _ _ c_opponent_move_results Hturns) by listed.
    lia.
Qed.

(** Calls on the game leave the players alone, and calls on a player
    leave the others alone. *)
Lemma frame_game_call {A} (m : M (table G P) A) player (x : P) :
  (forall t, t_players (final (m t)) = t_players t) ->
  preserves (fun t => t_players t player = x) m.
Proof. intros Hm t Ht. by rewrite Hm. Qed.

Lemma frame_player_procedure player player' (x : P) f ev :
  player ≠ player' ->
  preserves (fun t => t_players t player = x)
    (player_procedure (G:=G) player' f ev).
Proof.
  intros Hne t Ht. cbn. by rewrite fn_lookup_insert_ne.
Qed.

Lemma frame_play_turn player player' (x : P) end_turn_last :
  player ≠ player' ->
  preserves (fun t => t_players t player = x)
    (play_turn player' end_turn_last).
Proof. intros Hne t Ht. by rewrite play_turn_frame. Qed.

(** X5.  [play_local_game] calls no method of a player object other than
    the two it is given: whether it returns or runs on, every other
    player object is as it was. *)
Theorem play_local_game_other_players_untouched `{!LocalGame G} fuel
    white_player black_player game seconds_per_player heap player :
  bystander white_player black_player player ->
  t_players
    (final (play_local_game fuel white_player black_player game
              seconds_per_player heap)) player = heap player.
Proof.
  intros [Hwhite Hblack]. unfold play_local_game. cbv zeta.
  set (I := fun t : table G P => t_players t player = heap player).
  match goal with
  | |- t_players (final (?m ?t)) _ = _ => cut (preserves I m)
  end.
  { intros Hpreserves. by apply Hpreserves. }
  repeat match goal with
  | |- preserves _ (_ ≫= _) => apply preserves_bind; [|intros ?]
  | |- preserves _ (mret _) => apply preserves_mret
  | |- preserves _ (while _ _ _) => apply preserves_while
  | a : bool |- preserves _ (play_turn _ _) =>
      apply frame_play_turn; by destruct a
  | |- preserves _ (player_handle_game_start _ _ _ _) =>
      by apply frame_player_procedure
  | |- preserves _ (player_handle_game_end _ _ _ _) =>
      by apply frame_player_procedure
  | |- preserves _ final_results => unfold final_results
  | |- preserves _ _ => by apply frame_game_call
  end.
Qed.
End TurnEngineProperties.

(** * Further properties of the moderator *)

(** Running a closure of the table of the moderator: the calls are
    unfolded down to the functions of the game, the queue updates are
    kept. *)
Ltac run_answer :=
  unfold answer, queue_put, square_of, requested_move_of, game_player_names,
    game_sense_actions, game_move_actions, game_get_seconds_left,
    game_seconds_left_by_color, game_is_over, game_opponent_move_results,
    game_sense, game_move, game_end_turn, game_get_winner_color,
    game_get_win_reason, game_get_game_history, method, procedure,
    attribute, raise, mbind, M_bind, mret, M_ret;
  cbn [result final trace the_game with_game moderator_holds with_queues
       m_game m_queues m_player_names m_peers app fst snd];
  rewrite ?taken_game, ?fn_lookup_insert, ?taken_queue;
  cbn [to_player to_moderator].

(** Taking the request off the queue of [color] and running the closure
    of its command, given by the equation [Hcommand]. *)
Ltac answer_with Hp Hcommand Hturn :=
  rewrite (poll_pending _ _ _ Hp); cbv zeta;
  unfold served, dropped; cbn [result final trace];
  match goal with
  | |- context [respond ?color ?request (taken ?color ?m)] =>
      edestruct (respond_dispatch color request (taken color m))
        as (-> & -> & ->);
      [ rewrite Hcommand, taken_game, Hturn; reflexivity | ]
  end;
  run_answer.

(** The cases of [on_turn]: for each gated command, with its argument
    where it reads one, the closure of the command is run. *)
Ltac on_turn_cases request Hp Hon Hanswer :=
  repeat match type of Hanswer with
  | context [String.eqb ?a ?b] =>
      let Hc := fresh "Hc" in
      let Hsquare := fresh "Hsquare" in
      let Hmove := fresh "Hmove" in
      destruct (String.eqb_spec a b) as [Hc|_];
      [ try (destruct (request_square request) eqn:Hsquare; [|done]);
        try (destruct (request_requested_move request) eqn:Hmove; [|done]);
        injection Hanswer as <- <- <-;
        answer_with Hp Hc Hon; rewrite ?Hsquare, ?Hmove; run_answer;
        by rewrite Hc
      | ]
  end.

Section ModeratorProperties.
Context `{Types} {G E : Type} `{!Game G, !LocalGame G}.

Implicit Types (m : moderator G E) (color : Color) (request : Request).

(** The commands are the keys of the table. *)
Lemma responses_keys color request on_own_turn :
  (responses (E:=E) color request on_own_turn) !! request_command request
    = None <->
  request_command request ∉ commands.
Proof.
  unfold responses. rewrite <- not_elem_of_list_to_map. reflexivity.
Qed.

(** [respond] on a command that is no key of the table. *)
Lemma respond_unknown color request m :
  request_command request ∉ commands ->
  respond color request m =
    Run (Raised (KeyError (request_command request))) m [].
Proof.
  intros Hunknown. unfold respond, mbind, M_bind, game_turn, attribute.
  cbn [result final trace the_game moderator_holds].
  by rewrite (proj2 (responses_keys color request _) Hunknown).
Qed.

(** X6.  A request whose command is none of the table makes
    [_respond_to_requests] raise [KeyError] with that command, after it
    has taken the request off the queue: the request is lost, no response
    is put, the game is not called.  When it is White's request, the
    round ends there, and Black's queue is not looked at. *)
Theorem unknown_command_raises color request m :
  pending color request m ->
  request_command request ∉ commands ->
  dropped color request m (KeyError (request_command request))
    (poll color m) /\
  (color = WHITE ->
   dropped WHITE request m (KeyError (request_command request))
     (_respond_to_requests m)).
Proof.
  intros Hp Hunknown.
  assert (dropped color request m (KeyError (request_command request))
            (poll color m)) as Hdropped.
  { unfold dropped. rewrite (poll_pending _ _ _ Hp). cbv zeta.
    by rewrite respond_unknown. }
  split; [done|]. intros ->.
  destruct Hdropped as (Hres & Htrace & Hfinal).
  unfold dropped, _respond_to_requests, COLORS. cbn [for_each].
  unfold mbind, M_bind. rewrite Hres. by cbn [result final trace].
Qed.

(** X7.  On the turn of its color, a [sense] request without ['square']
    or a [move] request without ['requested_move'] makes the moderator
    raise [KeyError] with the missing key: the request is lost, the game
    is not called and no response is put. *)
Theorem missing_argument_raises color request m key :
  pending color request m ->
  turn (m_game m) = color ->
  missing_argument request = Some key ->
  dropped color request m (KeyError key) (poll color m).
Proof.
  intros Hp Hturn Hmissing.
  assert (Bool.eqb (turn (m_game m)) color = true) as Hon.
  { rewrite Hturn. by destruct color. }
  unfold missing_argument in Hmissing.
  destruct (String.eqb_spec (request_command request) "sense") as [Hc|_].
  { destruct (request_square request) eqn:Hsquare; [done|].
    injection Hmissing as <-.
    answer_with Hp Hc Hon. rewrite Hsquare. by run_answer. }
  destruct (String.eqb_spec (request_command request) "move") as [Hc|_];
    [|done].
  destruct (request_requested_move request) eqn:Hmove; [done|].
  injection Hmissing as <-.
  answer_with Hp Hc Hon. rewrite Hmove. by run_answer.
Qed.

(** A gated command on the turn of its color: the closure of the
    command calls the game and puts what it returns. *)
Lemma poll_on_turn color request m e v g' :
  pending color request m ->
  turn (m_game m) = color ->
  on_turn request (m_game m) = Some (e, v, g') ->
  served color request m [e]
    (Some {[ response_key (request_command request) := v ]}) (poll color m) /\
  m_game (final (poll color m)) = g'.
Proof.
  intros Hp Hturn Hanswer.
  assert (Bool.eqb (turn (m_game m)) color = true) as Hon.
  { rewrite Hturn. by destruct color. }
  unfold on_turn in Hanswer. cbv zeta in Hanswer.
  by on_turn_cases request Hp Hon Hanswer.
Qed.

(** X8.  On the turn of its color, a gated command is answered with
    what the game returns: the method of the command is called once, with
    the argument of the request for [sense] and [move], what it returns is
    put under the key of the command, and the game is left as that call
    left it. *)
Theorem gated_command_on_turn_answered color request m e v g' :
  pending color request m ->
  turn (m_game m) = color ->
  on_turn request (m_game m) = Some (e, v, g') ->
  served color request m [e]
    (Some {[ response_key (request_command request) := v ]}) (poll color m) /\
  m_game (final (poll color m)) = g'.
Proof.
  intros Hp Hturn Hanswer.
  assert (Bool.eqb (turn (m_game m)) color = true) as Hon.
  { rewrite Hturn. by destruct color. }
  unfold on_turn in Hanswer. cbv zeta in Hanswer.
  by on_turn_cases request Hp Hon Hanswer.
Qed.

(** X9.  The commands [color], [starting_board], [ready] and
    [opponent_name] are answered the same whoever's turn it is, without
    a call on the game: with the color that asks, the standard starting
    position, ['ready'], and the name stored for the other color, the
    first of [game.player_names] for White and the second for Black. *)
Theorem plain_command_answered color request m fields :
  pending color request m ->
  plain_answer color (m_player_names m) (request_command request)
    = Some fields ->
  served color request m [] (Some fields) (poll color m) /\
  m_game (final (poll color m)) = m_game m.
Proof.
  intros Hp Hanswer. unfold plain_answer in Hanswer.
  destruct (Bool.eqb (turn (m_game m)) color) eqn:Hturn;
    repeat match type of Hanswer with
    | context [String.eqb ?a ?b] =>
        destruct (String.eqb_spec a b) as [Hc|_];
        [ injection Hanswer as <-; answer_with Hp Hc Hturn;
          by destruct color
        | ]
    end; done.
Qed.
End ModeratorProperties.

(** ** What every round of the moderator keeps

    Any property of the state that calls on the game and operations on
    the queues keep is kept by [_respond_to_requests], whatever waits on
    the queues; any kind of event that covers these calls covers all
    events of a round. *)
Section Rounds.
Context `{Types} {G E : Type} `{!Game G, !LocalGame G}.

Variable I : moderator G E -> Prop.
Hypothesis I_game : forall g m, I m -> I (with_game g m).

Lemma preserves_method {A} (f : G -> A * G) ev : preserves I (method f ev).
Proof using All. intros m Hm. by apply I_game. Qed.

Lemma preserves_procedure (f : G -> G) ev : preserves I (procedure f ev).
Proof using All. intros m Hm. by apply I_game. Qed.

Lemma preserves_attribute {A} (f : G -> A) : preserves I (attribute f).
Proof using All. by intros m Hm. Qed.

(** Serving one color needs the operations on its queues only. *)
Section OneColor.
Variable color : Color.
Hypothesis I_get : preserves I (queue_get color).
Hypothesis I_put : forall response, preserves I (queue_put color response).

(** Walking through a computation of the moderator, call by call. *)
Ltac walk :=
  unfold answer, square_of, requested_move_of, game_sense_actions,
    game_move_actions, game_get_seconds_left, game_seconds_left_by_color,
    game_is_over, game_opponent_move_results, game_sense, game_move,
    game_end_turn, game_get_winner_color, game_get_win_reason,
    game_get_game_history, game_turn;
  repeat match goal with
  | |- preserves _ (_ ≫= _) => apply preserves_bind; [|intros ?]
  | |- preserves _ (mret _) => apply preserves_mret
  | |- preserves _ (raise _) => apply preserves_raise
  | |- preserves _ (if ?b then _ else _) => destruct b
  | |- preserves _ (match ?x with Some _ => _ | None => _ end) => destruct x
  | |- preserves _ (method _ _) => apply preserves_method
  | |- preserves _ (procedure _ _) => apply preserves_procedure
  | |- preserves _ (attribute _) => apply preserves_attribute
  | |- preserves _ (queue_put _ _) => apply I_put
  | |- preserves _ (queue_get _) => apply I_get
  | |- preserves _ game_player_names => by intros ? ?
  | |- preserves _ (queue_empty _) => by intros ? ?
  end.

Lemma preserves_respond request : preserves I (respond color request).
Proof using All.
  unfold respond. cbv zeta. apply preserves_bind; [walk|]. intros game_turn.
  destruct (responses _ _ _ !! _) as [k|] eqn:Hk; [|apply preserves_raise].
  unfold responses in Hk. apply elem_of_list_to_map_2 in Hk.
  repeat (apply elem_of_cons in Hk as [Hk|Hk]);
    try (by apply elem_of_nil in Hk);
    injection Hk as _ ->; walk.
Qed.

Lemma preserves_poll : preserves I (poll color).
Proof using All.
  unfold poll. walk. apply preserves_respond.
Qed.
End OneColor.

Hypothesis I_gets : forall color, preserves I (queue_get color).
Hypothesis I_puts :
  forall color response, preserves I (queue_put color response).

Lemma preserves_round : preserves I (_respond_to_requests (E:=E)).
Proof using All.
  unfold _respond_to_requests, COLORS. cbn [for_each].
  repeat (apply preserves_bind;
          [apply preserves_poll; [apply I_gets|apply I_puts]|intros _]).
  apply preserves_mret.
Qed.
End Rounds.

Section RoundCalls.
Context `{Types} {G E : Type} `{!Game G, !LocalGame G}.

Implicit Types (m : moderator G E) (color : Color) (request : Request).

(** Walking through a computation of the moderator, event by event;
    [tac] shows that an event that is written out is of the kind. *)
Ltac walk_events tac :=
  unfold answer, square_of, requested_move_of, game_sense_actions,
    game_move_actions, game_get_seconds_left, game_seconds_left_by_color,
    game_is_over, game_opponent_move_results, game_sense, game_move,
    game_end_turn, game_get_winner_color, game_get_win_reason,
    game_get_game_history, game_turn;
  lazy beta iota;
  repeat match goal with
  | |- emits _ (_ ≫= _) => apply emits_bind; [|intros ?]
  | |- emits _ (mret _) => apply emits_mret
  | |- emits _ (raise _) => apply emits_raise
  | |- emits _ (if ?b then _ else _) => destruct b
  | |- emits _ (match ?x with Some _ => _ | None => _ end) => destruct x
  | |- emits _ (attribute _) => intros ?; constructor
  | |- emits _ game_player_names => intros ?; constructor
  | |- emits _ (method _ _) =>
      intros ?; constructor; [cbn [call_of]; tac|constructor]
  | |- emits _ (procedure _ _) =>
      intros ?; constructor; [cbn [call_of]; tac|constructor]
  | |- emits _ (queue_put _ _) =>
      intros ?; constructor; [cbn [call_of]; tac|constructor]
  | |- emits _ (queue_empty _) =>
      intros ?; constructor; [cbn [call_of]; tac|constructor]
  end.

(** A round makes no call but those of [moderator_calls]. *)
Lemma emits_get color :
  emits (S:=moderator G E) (fun e => call_of e ∈ moderator_calls)
    (queue_get color).
Proof.
  intros m. unfold queue_get.
  destruct (to_moderator (m_queues m color)); constructor.
  - cbn [call_of]. listed.
  - constructor.
Qed.

Lemma emits_respond color request :
  emits (S:=moderator G E) (fun e => call_of e ∈ moderator_calls)
    (respond color request).
Proof.
  unfold respond. cbv zeta. apply emits_bind; [walk_events listed|].
  intros game_turn.
  destruct (responses _ _ _ !! _) as [k|] eqn:Hk; [|apply emits_raise].
  unfold responses in Hk. apply elem_of_list_to_map_2 in Hk.
  repeat (apply elem_of_cons in Hk as [Hk|Hk]);
    try (by apply elem_of_nil in Hk);
    injection Hk as _ ->; walk_events listed.
Qed.

Lemma emits_poll color :
  emits (S:=moderator G E) (fun e => call_of e ∈ moderator_calls)
    (poll color).
Proof.
  unfold poll. apply emits_bind; [walk_events listed|]. intros empty.
  destruct (negb empty); [|apply emits_mret].
  apply emits_bind; [apply emits_get|intros ?; apply emits_respond].
Qed.

Lemma emits_round :
  emits (S:=moderator G E) (fun e => call_of e ∈ moderator_calls)
    _respond_to_requests.
Proof.
  unfold _respond_to_requests, COLORS. cbn [for_each].
  repeat (apply emits_bind; [apply emits_poll|intros _]).
  apply emits_mret.
Qed.

(** Off the turn of the color, no closure of the table calls a method of
    [turn_only_calls]. *)
Lemma emits_off_turn color request command k :
  responses (E:=E) color request false !! command = Some k ->
  emits (fun e => call_of e ∉ turn_only_calls) k.
Proof.
  intros Hk. unfold responses in Hk. apply elem_of_list_to_map_2 in Hk.
  repeat (apply elem_of_cons in Hk as [Hk|Hk]);
    try (by apply elem_of_nil in Hk);
    injection Hk as _ ->;
    walk_events ltac:(by apply (bool_decide_unpack _)).
Qed.

(** X10.  Whatever a color sends when it is not its turn, a command of
    the table or not, with its argument or not, the moderator calls none
    of [sense_actions], [move_actions], [opponent_move_results], [sense],
    [move], [end_turn] and [get_seconds_left] for it. *)
Theorem off_turn_request_never_acts color request m :
  pending color request m ->
  turn (m_game m) ≠ color ->
  Forall (fun e => call_of e ∉ turn_only_calls) (trace (poll color m)).
Proof.
  intros Hp Hturn.
  assert (Bool.eqb (turn (m_game m)) color = false) as Hoff.
  { by destruct (turn (m_game m)), color. }
  rewrite (poll_pending _ _ _ Hp). cbv zeta. cbn [trace app].
  do 2 (constructor; [by apply (bool_decide_unpack _)|]).
  unfold respond. cbv zeta.
  rewrite (bind_trace game_turn _ _ (taken color m)
             (turn (m_game m)) []) by reflexivity.
  rewrite app_nil_l, Hoff.
  destruct (responses _ _ _ !! _) as [k|] eqn:Hk; [|constructor].
  by apply (emits_off_turn _ _ _ _ Hk).
Qed.
End RoundCalls.

Section RoundInvariants.
Context `{Types} {G E : Type} `{!Game G, !LocalGame G}.

Implicit Types (m : moderator G E) (color : Color) (request : Request).

(** X11.  A round of the moderator, whatever waits on the queues and
    whether it returns or raises, leaves [game.player_names] and the
    player processes as they are, and makes no call but operations on the
    queues and the eleven methods of the game in its table: it never starts
    or ends the game, nor stores the players. *)
Theorem round_keeps_names_and_processes m :
  m_player_names (final (_respond_to_requests m)) = m_player_names m /\
  m_peers (final (_respond_to_requests m)) = m_peers m /\
  Forall (fun e => call_of e ∈ moderator_calls)
    (trace (_respond_to_requests m)).
Proof.
  split; [|split].
  - apply (preserves_round
             (fun m' => m_player_names m' = m_player_names m)).
    + by intros g m' Hm'.
    + intros color m' Hm'. unfold queue_get.
      by destruct (to_moderator (m_queues m' color)).
    + by intros color response m' Hm'.
    + done.
  - apply (preserves_round (fun m' => m_peers m' = m_peers m)).
    + by intros g m' Hm'.
    + intros color m' Hm'. unfold queue_get.
      by destruct (to_moderator (m_queues m' color)).
    + by intros color response m' Hm'.
    + done.
  - apply emits_round.
Qed.

(** X12.  A round of the moderator, whatever waits on the queues and
    whether it returns or raises, only takes requests from the front of a
    'to moderator' queue and only puts responses at the back of a 'to
    player' queue: it never removes a response nor adds a request. *)
Theorem round_advances_queues m color :
  queues_advanced color m (final (_respond_to_requests m)).
Proof.
  apply (preserves_round (queues_advanced color m)).
  - by intros g m' Hm'.
  - intros color' m' [Hprefix Hsuffix]. unfold queue_get, queues_advanced.
    destruct (to_moderator (m_queues m' color')) as [|request rest] eqn:Hq;
      [done|].
    cbn [final m_queues with_queues].
    destruct (decide (color' = color)) as [->|Hne].
    + rewrite fn_lookup_insert. cbn [to_player to_moderator].
      split; [done|]. rewrite Hq in Hsuffix.
      etransitivity; [|exact Hsuffix]. by apply suffix_cons_r.
    + by rewrite fn_lookup_insert_ne.
  - intros color' response m' [Hprefix Hsuffix].
    unfold queue_put, queues_advanced.
    cbn [final m_queues with_queues].
    destruct (decide (color' = color)) as [->|Hne].
    + rewrite fn_lookup_insert. cbn [to_player to_moderator].
      split; [|done]. etransitivity; [exact Hprefix|]. by apply prefix_app_r.
    + by rewrite fn_lookup_insert_ne.
  - done.
Qed.
End RoundInvariants.

Section ModeratorDriver.
Context `{Types} {G E C : Type} `{!Game G, !LocalGame G, !Peers E C}.

Implicit Types (m : moderator G E) (color : Color).

Lemma times_called_none c (tr : list event) :
  Forall (fun e => call_of e ≠ c) tr -> times_called c tr = 0.
Proof.
  induction 1 as [|e tr He _ IH]; [done|].
  by rewrite times_called_cons, bool_decide_eq_false_2, IH.
Qed.

Lemma rounds_none c (go round : list event -> Prop) tr :
  rounds go round tr ->
  (forall g, go g -> times_called c g = 0) ->
  (forall b, round b -> times_called c b = 0) ->
  times_called c tr = 0.
Proof.
  intros Hrounds Hgo Hround.
  induction Hrounds as [|g b rest Hg Hb _ IH]; [done|].
  by rewrite !times_called_app, (Hgo _ Hg), (Hround _ Hb), IH.
Qed.

Lemma round_none c (b : list event) :
  c ∉ moderator_calls -> a_round (G:=G) (E:=E) b -> times_called c b = 0.
Proof.
  intros Hc [m ->]. apply times_called_none.
  eapply Forall_impl; [|exact (emits_round m)].
  intros e He Hcall. apply Hc. by rewrite <- Hcall.
Qed.

(** X13.  When [play_multiprocessing_local_game] returns, it has stored
    the players once, started each of the two player processes once,
    started the game once and ended it once, however many rounds of
    requests it has served. *)
Theorem moderator_starts_and_ends_once fuel
    (white_player_class black_player_class : C) game seconds_per_player
    (peers : E) results :
  let r := play_multiprocessing_local_game fuel white_player_class
             black_player_class game seconds_per_player peers in
  result r = Returned results ->
  times_called c_store_players (trace r) = 1 /\
  times_called c_process_start (trace r) = 2 /\
  times_called c_start (trace r) = 1 /\
  times_called c_end (trace r) = 1.
Proof.
  intros r Hres.
  destruct (play_multiprocessing_local_game_shape _ _ _ _ _ _ _ Hres)
    as (playing & draining & Hplaying & Hdraining & Htrace).
  subst r. rewrite Htrace.
  assert (forall c, c ∉ moderator_calls -> c ≠ c_is_over ->
                    c ≠ c_process_is_alive ->
                    times_called c playing = 0 /\
                    times_called c draining = 0) as Hnone.
  { intros c Hc Hover Halive. split.
    - apply (rounds_none _ _ _ _ Hplaying); [|by intros b Hb; apply round_none].
      intros g ->. count_calls. by rewrite bool_decide_eq_false_2.
    - apply (rounds_none _ _ _ _ Hdraining); [|by intros b Hb; apply round_none].
      intros g (b & w & -> & _). rewrite !times_called_cons.
      cbn [call_of]. by rewrite !bool_decide_eq_false_2. }
  count_calls.
  destruct (Hnone c_store_players) as [-> ->];
    [by apply (bool_decide_unpack _)|done..|].
  destruct (Hnone c_process_start) as [-> ->];
    [by apply (bool_decide_unpack _)|done..|].
  destruct (Hnone c_start) as [-> ->];
    [by apply (bool_decide_unpack _)|done..|].
  destruct (Hnone c_end) as [-> ->];
    [by apply (bool_decide_unpack _)|done..|].
  done.
Qed.
End ModeratorDriver.

(** ** The order of the colors within a round

    [chess.COLORS] is White, then Black: what White's request does to the
    game is seen by Black's request of the same round, and not the other
    way around. *)
Section RoundOrder.
Context `{Types} {G E : Type} `{!Game G, !LocalGame G}.

Implicit Types (m : moderator G E) (color : Color) (request : Request).

(** Serving one color leaves the queues of the other as they are. *)
Lemma poll_other_queue color color' m :
  color' ≠ color ->
  m_queues (final (poll color m)) color' = m_queues m color'.
Proof.
  intros Hne.
  apply (preserves_poll (fun m' => m_queues m' color' = m_queues m color')).
  - by intros g m' Hm'.
  - intros m' Hm'. unfold queue_get.
    destruct (to_moderator (m_queues m' color)); [done|].
    cbn [final m_queues with_queues]. by rewrite fn_lookup_insert_ne.
  - intros response m' Hm'. unfold queue_put.
    cbn [final m_queues with_queues]. by rewrite fn_lookup_insert_ne.
  - done.
Qed.

(** A round in which White's request is answered goes on with Black's
    queue, from the state White's answer left. *)
Lemma round_white_then_black m :
  result (poll WHITE m) = Returned tt ->
  result (_respond_to_requests m) =
    result (poll BLACK (final (poll WHITE m))) /\
  final (_respond_to_requests m) =
    final (poll BLACK (final (poll WHITE m))) /\
  trace (_respond_to_requests m) =
    trace (poll WHITE m) ++ trace (poll BLACK (final (poll WHITE m))).
Proof.
  intros Hwhite. unfold _respond_to_requests, COLORS. cbn [for_each].
  unfold mbind, M_bind, mret, M_ret. rewrite Hwhite.
  destruct (result (poll BLACK _)) as [[]| | |];
    cbn [result final trace]; by rewrite ?app_nil_r.
Qed.

(** [end_turn] on the turn of the color. *)
Lemma poll_end_turn color request m :
  pending color request m ->
  request_command request = "end_turn" ->
  turn (m_game m) = color ->
  served color request m [G_end_turn]
    (Some {[ "end_turn" := VStr "done" ]}) (poll color m) /\
  m_game (final (poll color m)) = end_turn (m_game m).
Proof.
  intros Hp Hc Hturn.
  assert (Bool.eqb (turn (m_game m)) color = true) as Hon.
  { rewrite Hturn. by destruct color. }
  by answer_with Hp Hc Hon.
Qed.

(** A gated command off the turn of its color. *)
Lemma poll_off_turn color request m :
  pending color request m ->
  request_command request ∈ gated_commands ->
  turn (m_game m) ≠ color ->
  served color request m []
    (Some {[ response_key (request_command request) := VNone ]})
    (poll color m) /\
  m_game (final (poll color m)) = m_game m.
Proof.
  intros Hp Hgated Hturn.
  assert (Bool.eqb (turn (m_game m)) color = false) as Hoff.
  { by destruct (turn (m_game m)), color. }
  unfold gated_commands in Hgated.
  repeat (apply elem_of_cons in Hgated as [Hc|Hgated]);
    [..|by apply elem_of_nil in Hgated];
    answer_with Hp Hc Hoff; by rewrite Hc.
Qed.

(** X15.  White is served before Black in each round, so a turn that
    White ends is Black's within the round: when White's [end_turn]
    comes on White's turn and the game then gives the turn to Black, the
    gated request that waits on Black's queue is answered in the same
    round with what the game returns after [end_turn]. *)
Theorem white_end_turn_lets_black_in request_w request_b m e v g' :
  pending WHITE request_w m ->
  pending BLACK request_b m ->
  request_command request_w = "end_turn" ->
  turn (m_game m) = WHITE ->
  turn (end_turn (m_game m)) = BLACK ->
  on_turn request_b (end_turn (m_game m)) = Some (e, v, g') ->
  let r := _respond_to_requests m in
  result r = Returned tt /\
  trace r =
    [Q_empty WHITE false; Q_get WHITE request_w; G_end_turn;
     Q_put WHITE (Some {[ "end_turn" := VStr "done" ]});
     Q_empty BLACK false; Q_get BLACK request_b; e;
     Q_put BLACK (Some {[ response_key (request_command request_b) := v ]})] /\
  m_game (final r) = g'.
Proof.
  intros Hw Hb Hc Hturn Hturn' Hanswer r. subst r.
  destruct (poll_end_turn _ _ _ Hw Hc Hturn)
    as ((Hres & Htrace & _) & Hgame).
  destruct (round_white_then_black m Hres) as (-> & -> & ->).
  assert (pending BLACK request_b (final (poll WHITE m))) as Hb'.
  { unfold pending. by rewrite poll_other_queue. }
  rewrite <- Hgame in Hturn', Hanswer.
  destruct (poll_on_turn _ _ _ _ _ _ Hb' Hturn' Hanswer)
    as ((Hres' & Htrace' & _) & Hgame').
  by rewrite Hres', Htrace, Htrace', Hgame'.
Qed.

(** X16.  Not so the other way around: when Black's [end_turn] comes on
    Black's turn, a gated request that waits on White's queue in the
    same round is answered before it, with [None] and no call on the
    game, whoever has the turn once the round is done. *)
Theorem black_end_turn_keeps_white_out request_w request_b m :
  pending WHITE request_w m ->
  pending BLACK request_b m ->
  request_command request_w ∈ gated_commands ->
  request_command request_b = "end_turn" ->
  turn (m_game m) = BLACK ->
  let r := _respond_to_requests m in
  result r = Returned tt /\
  trace r =
    [Q_empty WHITE false; Q_get WHITE request_w;
     Q_put WHITE (Some {[ response_key (request_command request_w) := VNone ]});
     Q_empty BLACK false; Q_get BLACK request_b; G_end_turn;
     Q_put BLACK (Some {[ "end_turn" := VStr "done" ]})] /\
  m_game (final r) = end_turn (m_game m).
Proof.
  intros Hw Hb Hgated Hc Hturn r. subst r.
  assert (turn (m_game m) ≠ WHITE) as Hoff by by rewrite Hturn.
  destruct (poll_off_turn _ _ _ Hw Hgated Hoff)
    as ((Hres & Htrace & _) & Hgame).
  destruct (round_white_then_black m Hres) as (-> & -> & ->).
  assert (pending BLACK request_b (final (poll WHITE m))) as Hb'.
  { unfold pending. by rewrite poll_other_queue. }
  rewrite <- Hgame in Hturn.
  destruct (poll_end_turn _ _ _ Hb' Hc Hturn)
    as ((Hres' & Htrace' & _) & Hgame').
  by rewrite Hres', Htrace, Htrace', Hgame', Hgame.
Qed.
End RoundOrder.

(** * The moderator serves to the end

    With player processes that send well-formed requests only, the
    moderator never raises: it runs until the game is over and both
    processes have exited. *)
Section GoesOn.
Context `{Types} {S : Type}.

Lemma goes_on_bind {A B} (I : S -> Prop) (m : M S A) (k : A -> M S B) :
  goes_on I m -> (forall a, goes_on I (k a)) -> goes_on I (m ≫= k).
Proof.
  intros Hm Hk s Hs. unfold mbind, M_bind.
  destruct (Hm s Hs) as [[Hout|[a Ha]] Hfinal].
  - rewrite Hout. cbn [result final]. split; [by left|done].
  - rewrite Ha. cbn [result final]. by apply Hk.
Qed.

Lemma goes_on_mret {A} (I : S -> Prop) (a : A) : goes_on I (mret a).
Proof. intros s Hs. split; [right; by exists a|done]. Qed.

Lemma goes_on_while (I : S -> Prop) (cond : M S bool) (body : M S unit)
    fuel :
  goes_on I cond -> goes_on I body -> goes_on I (while fuel cond body).
Proof.
  intros Hcond Hbody. induction fuel as [|fuel IH].
  - intros s Hs. split; [by left|done].
  - cbn [while]. apply goes_on_bind; [done|]. intros [].
    + by apply goes_on_bind.
    + apply goes_on_mret.
Qed.
End GoesOn.

Section ServesToTheEnd.
Context `{Types} {G E C : Type} `{!Game G, !LocalGame G, !Peers E C}.

Implicit Types (m : moderator G E) (color : Color).

Variable J : E -> Prop.
Hypothesis J_sends : sends_well_formed (C:=C) J.

Lemma steady_game g m : steady J m -> steady J (with_game g m).
Proof. done. Qed.

Lemma steady_get color : preserves (steady (G:=G) J) (queue_get color).
Proof.
  intros m [HJ Hq]. unfold queue_get.
  destruct (to_moderator (m_queues m color)) as [|request rest] eqn:Hrest;
    [done|].
  split; [done|]. intros color'. cbn [final m_queues with_queues].
  destruct (decide (color' = color)) as [->|Hne].
  - rewrite fn_lookup_insert. cbn [to_moderator].
    specialize (Hq color). rewrite Hrest in Hq.
    by apply Forall_cons_1 in Hq as [_ Hq].
  - rewrite fn_lookup_insert_ne by done. apply Hq.
Qed.

Lemma steady_put color response :
  preserves (steady (G:=G) J) (queue_put color response).
Proof.
  intros m [HJ Hq]. unfold queue_put.
  split; [done|]. intros color'. cbn [final m_queues with_queues].
  destruct (decide (color' = color)) as [->|Hne].
  - rewrite fn_lookup_insert. cbn [to_moderator]. apply Hq.
  - rewrite fn_lookup_insert_ne by done. apply Hq.
Qed.

(** A round on well-formed requests returns. *)
Lemma round_returns m :
  well_formed_queues (m_queues m) ->
  result (_respond_to_requests m) = Returned tt.
Proof.
  intros Hq.
  assert (forall color m', well_formed_queues (m_queues m') ->
            forall request, pending color request m' ->
                            well_formed request = true) as Hhead.
  { intros color m' Hq' request Hp. unfold pending in Hp.
    specialize (Hq' color).
    destruct (to_moderator (m_queues m' color)) as [|q rest]; [done|].
    injection Hp as ->. by apply Forall_cons_1 in Hq' as [Hq' _]. }
  destruct (poll_once WHITE m (Hhead WHITE m Hq)) as (Hres1 & Hframe1 & _).
  change (negb WHITE) with BLACK in Hframe1.
  destruct (poll_once BLACK (final (poll WHITE m))) as (Hres2 & _).
  { intros request. unfold pending. rewrite Hframe1.
    apply (Hhead BLACK m Hq). }
  unfold _respond_to_requests, COLORS. cbn [for_each].
  unfold mbind, M_bind. rewrite Hres1. cbn [result final trace].
  by rewrite Hres2.
Qed.

Lemma goes_on_round : goes_on (steady (G:=G) J) (_respond_to_requests (E:=E)).
Proof using J_sends.
  intros m Hm. split.
  - right. exists tt. apply round_returns, Hm.
  - revert m Hm.
    apply (preserves_round (steady (G:=G) J) steady_game steady_get steady_put).
Qed.

Lemma goes_on_method {A} (f : G -> A * G) ev :
  goes_on (steady (G:=G) J) (method f ev).
Proof. intros m Hm. split; [right; by eexists|done]. Qed.

Lemma goes_on_procedure (f : G -> G) ev : goes_on (steady (G:=G) J) (procedure f ev).
Proof. intros m Hm. split; [right; by eexists|done]. Qed.

Lemma goes_on_yield : goes_on (steady (G:=G) J) yield.
Proof using J_sends.
  intros m [HJ Hq]. split; [right; by eexists|].
  exact (proj2 J_sends _ _ HJ Hq).
Qed.

Lemma goes_on_process_start color (player_class : C) :
  goes_on (steady (G:=G) J) (process_start color player_class).
Proof using J_sends.
  intros m [HJ Hq]. split; [right; by eexists|].
  split; [|done]. exact (proj1 J_sends _ _ _ HJ).
Qed.

Lemma goes_on_process_is_alive color :
  goes_on (steady (G:=G) J) (process_is_alive color).
Proof. intros m Hm. split; [right; by eexists|done]. Qed.

(** The moderator with well-behaved processes returns, unless it is cut
    short by the fuel. *)
Lemma play_multiprocessing_local_game_goes_on fuel
    (white_player_class black_player_class : C) game seconds_per_player
    (peers : E) :
  J peers ->
  let r := play_multiprocessing_local_game fuel white_player_class
             black_player_class game seconds_per_player peers in
  result r = OutOfFuel \/ exists results, result r = Returned results.
Proof using J_sends.
  intros Hpeers. unfold play_multiprocessing_local_game. cbv zeta.
  match goal with
  | |- result (?c ?m) = _ \/ _ => cut (goes_on (steady (G:=G) J) c)
  end.
  { intros Hgoes. apply Hgoes. split; [done|]. intros color. constructor. }
  unfold game_store_players, game_start, game_end, game_is_over,
    game_get_winner_color, game_get_win_reason, game_get_game_history.
  repeat match goal with
  | |- goes_on _ (_ ≫= _) => apply goes_on_bind; [|intros ?]
  | |- goes_on _ (mret _) => apply goes_on_mret
  | |- goes_on _ (while _ _ _) => apply goes_on_while
  | |- goes_on _ _respond_to_requests => apply goes_on_round
  | |- goes_on _ (method _ _) => apply goes_on_method
  | |- goes_on _ (procedure _ _) => apply goes_on_procedure
  | |- goes_on _ yield => apply goes_on_yield
  | |- goes_on _ (process_start _ _) => apply goes_on_process_start
  | |- goes_on _ (process_is_alive _) => apply goes_on_process_is_alive
  end.
Qed.
End ServesToTheEnd.

Section ModeratorServes.
Context `{Types} {G E C : Type} `{!Game G, !LocalGame G, !Peers E C}.

End ModeratorServes.

(** * The drivers on the small game *)

Import Toy.

(** C1, as the claim has it, fails: in a turn of the small game the
    opponent's move results are asked for after the sense actions and the
    move actions, not before. *)
Lemma play_turn_notifies_first_counterexample :
  ~ notified_before_actions (trace (play_turn 1 false (table_in 2))).
Proof. intros [Hs _]. vm_compute in Hs. discriminate Hs. Qed.

(** C2 at work: it is White's turn and Black asks for a move. *)
Lemma gated_command_off_turn_witness :
  let m := moderator_in (game_in 1) [] [ask_move 3] in
  (pending BLACK (ask_move 3) m /\
   request_command (ask_move 3) ∈ gated_commands /\
   turn (m_game m) ≠ BLACK) /\
  not_available BLACK (ask_move 3) m (poll BLACK m).
Proof.
  cbv zeta.
  assert (request_command (ask_move 3) ∈ gated_commands) as Hgated.
  { by apply (bool_decide_unpack _). }
  split; [done|].
  by apply gated_command_off_turn_not_available.
Defined.

(** C3, as the claim has it, fails for [game_status]: the game is over,
    it is White's turn, and Black is told that it is not its turn. *)
Lemma game_status_is_my_turn_counterexample :
  ~ reports_turn_or_end (G:=game) (E:=script) "game_status".
Proof.
  intros Hclaim.
  destruct (Hclaim BLACK (ask "game_status")
              (moderator_in (game_in 0) [] [ask "game_status"])
              eq_refl eq_refl) as (fields & Hput & Hfield).
  assert (trace (poll BLACK (moderator_in (game_in 0) []
                               [ask "game_status"])) =
          [Q_empty BLACK false; Q_get BLACK (ask "game_status");
           G_is_over true;
           Q_put BLACK
             (Some {[ "is_over" := VBool true;
                      "is_my_turn" := VBool false ]})]) as Htrace.
  { by vm_compute. }
  rewrite Htrace in Hput.
  repeat (apply elem_of_cons in Hput as [Hput|Hput]); try discriminate Hput.
  - injection Hput as ->. vm_compute in Hfield. discriminate Hfield.
  - by apply elem_of_nil in Hput.
Qed.

(** C3, as the code has it, at work: the game is over, it is White's
    turn, and Black asks if it is its turn. *)
Lemma is_my_turn_and_game_status_witness :
  let m := moderator_in (game_in 0) [] [ask "is_my_turn"] in
  (pending BLACK (ask "is_my_turn") m /\
   request_command (ask "is_my_turn") ∈ ["is_my_turn"; "game_status"]) /\
  turn_reported BLACK (ask "is_my_turn") m (poll BLACK m).
Proof.
  cbv zeta.
  assert (request_command (ask "is_my_turn")
            ∈ ["is_my_turn"; "game_status"]) as Hcommand.
  { by apply (bool_decide_unpack _). }
  split; [done|].
  by apply is_my_turn_and_game_status.
Defined.




(** The round of that run: Black's read-only request is not answered. *)
Lemma read_only_request_behind_unknown_command :
  ~ read_only_always_answered (G:=game) (E:=script).
Proof.
  intros Hclaim.
  assert ("winner_color" ∈ read_only_commands) as Hcommand.
  { by apply (bool_decide_unpack _). }
  destruct (Hclaim BLACK (ask "winner_color")
              (moderator_in (game_in 1) [ask "resign"] [ask "winner_color"])
              eq_refl Hcommand) as [Hres _].
  vm_compute in Hres. discriminate Hres.
Qed.

(** The small processes send what their script holds. *)
Lemma send_well_formed (q : Color -> channel) (message : Color * Request) :
  well_formed_queues q ->
  well_formed message.2 = true ->
  well_formed_queues (send q message).
Proof.
  intros Hq Hmessage color. unfold send.
  destruct (decide (color = message.1)) as [->|Hne].
  - rewrite fn_lookup_insert. cbn [to_moderator].
    apply Forall_app. split; [apply Hq|]. by constructor.
  - rewrite fn_lookup_insert_ne by done. apply Hq.
Qed.

Lemma script_sends_well_formed :
  sends_well_formed (C:=string) well_formed_script.
Proof.
  split; [done|]. intros e q He Hq. cbn [peers_run peers_ops fst snd].
  split.
  - destruct He; [constructor|done].
  - assert (Forall (fun message : Color * Request =>
                      well_formed message.2 = true)
              (from_option id [] (head e))) as Hstep.
    { destruct He; [constructor|done]. }
    assert (well_formed_queues (fun c => Channel [] (to_moderator (q c))))
      as Hstart.
    { intros color. apply Hq. }
    revert Hstart. generalize (fun c => Channel [] (to_moderator (q c))).
    induction Hstep as [|message rest Hmessage _ IH]; intros q0 Hq0; [done|].
    cbn [foldl]. apply IH. by apply send_well_formed.
Qed.


(** C7 at work: it is White's turn and Black asks for its clock. *)
Lemma seconds_left_witness :
  let m := moderator_in (game_in 1) [] [ask "seconds_left"] in
  (pending BLACK (ask "seconds_left") m /\
   request_command (ask "seconds_left") = "seconds_left") /\
  clock_reported BLACK (ask "seconds_left") m (poll BLACK m).
Proof.
  cbv zeta. split; [done|]. by apply seconds_left_is_own_clock.
Defined.

(** C8 at work: it is White's turn and White ends it. *)
Lemma end_turn_witness :
  let m := moderator_in (game_in 1) [ask "end_turn"] [] in
  (pending WHITE (ask "end_turn") m /\
   request_command (ask "end_turn") = "end_turn") /\
  turn_ended WHITE (ask "end_turn") m (poll WHITE m).
Proof.
  cbv zeta. split; [done|]. by apply end_turn_only_on_own_turn.
Defined.


(** * Further runs on the small game *)


(** X4 at work: a local game of two half-moves and a remote game of
    one. *)
Lemma whole_game_calls_counted_witness :
  let local := play_local_game 5 1 2 (Some (game_in 2)) 900 (fun _ => 0) in
  let remote := play_remote_game 5 1 (table_in 1) in
  (result local = Returned (Some BLACK, Some "king capture", [10; 10]) /\
   turns_counted (trace local)) /\
  (result remote = Returned (Some WHITE, Some "king capture", [10]) /\
   turns_counted (trace remote)).
Proof.
  cbv zeta.
  assert (result (play_local_game 5 1 2 (Some (game_in 2)) 900 (fun _ => 0))
          = Returned (Some BLACK, Some "king capture", [10; 10])) as Hlocal.
  { by vm_compute. }
  assert (result (play_remote_game 5 1 (table_in 1))
          = Returned (Some WHITE, Some "king capture", [10])) as Hremote.
  { by vm_compute. }
  split; [split; [exact Hlocal|]|split; [exact Hremote|]].
  - exact (proj1 (whole_game_calls_counted (H:=types) (G:=game) (P:=nat))
             5 1 2 (Some (game_in 2)) 900 (fun _ => 0) _ Hlocal).
  - exact (proj2 (whole_game_calls_counted (H:=types) (G:=game) (P:=nat))
             5 1 (table_in 1) _ Hremote).
Defined.

(** X5 at work: a third player object, at address 3, during a local game
    of the players at 1 and 2. *)
Lemma play_local_game_other_players_witness :
  bystander 1 2 3 /\
  t_players
    (final (play_local_game 5 1 2 (Some (game_in 2)) 900 (fun _ => 0))) 3
    = 0.
Proof.
  assert (bystander 1 2 3) as Hthird.
  { split; discriminate. }
  split; [exact Hthird|].
  exact (play_local_game_other_players_untouched (H:=types) (G:=game)
           (P:=nat) 5 1 2 (Some (game_in 2)) 900 (fun _ => 0) 3 Hthird).
Defined.

(** X6 at work: White sends a command the table does not have. *)
Lemma unknown_command_witness :
  let m := moderator_in (game_in 1) [ask "resign"] [ask "color"] in
  (pending WHITE (ask "resign") m /\
   request_command (ask "resign") ∉ commands) /\
  dropped WHITE (ask "resign") m (KeyError "resign")
    (_respond_to_requests m).
Proof.
  cbv zeta.
  assert (request_command (ask "resign") ∉ commands) as Hunknown.
  { by apply (bool_decide_unpack _). }
  split; [split; [reflexivity|exact Hunknown]|].
  exact (proj2 (unknown_command_raises (H:=types) (G:=game) (E:=script)
                  WHITE (ask "resign")
                  (moderator_in (game_in 1) [ask "resign"] [ask "color"])
                  eq_refl Hunknown) eq_refl).
Defined.

(** X7 at work: on its turn White asks to sense and names no square. *)
Lemma missing_argument_witness :
  let m := moderator_in (game_in 1) [ask "sense"] [] in
  (pending WHITE (ask "sense") m /\
   turn (m_game m) = WHITE /\
   missing_argument (ask "sense") = Some "square") /\
  dropped WHITE (ask "sense") m (KeyError "square") (poll WHITE m).
Proof.
  cbv zeta. split; [by repeat split|].
  exact (missing_argument_raises (H:=types) (G:=game) (E:=script)
           WHITE (ask "sense") (moderator_in (game_in 1) [ask "sense"] [])
           "square" eq_refl eq_refl eq_refl).
Defined.

(** X8 at work: on its turn White senses at square 1. *)
Lemma gated_command_on_turn_witness :
  let m := moderator_in (game_in 1) [ask_sense 1] [] in
  (pending WHITE (ask_sense 1) m /\
   turn (m_game m) = WHITE /\
   on_turn (ask_sense 1) (m_game m) =
     Some (G_sense (Some 1) [1], VSenseResult [1], game_in 1)) /\
  served WHITE (ask_sense 1) m [G_sense (Some 1) [1]]
    (Some {[ "sense_result" := VSenseResult [1] ]}) (poll WHITE m) /\
  m_game (final (poll WHITE m)) = game_in 1.
Proof.
  cbv zeta. split; [by repeat split|].
  exact (gated_command_on_turn_answered (H:=types) (G:=game) (E:=script)
           WHITE (ask_sense 1) (moderator_in (game_in 1) [ask_sense 1] [])
           (G_sense (Some 1) [1]) (VSenseResult [1]) (game_in 1)
           eq_refl eq_refl eq_refl).
Defined.

(** X9 at work: Black asks for the name of its opponent. *)
Lemma plain_command_witness :
  let m := moderator_in (game_in 1) [] [ask "opponent_name"] in
  (pending BLACK (ask "opponent_name") m /\
   plain_answer BLACK (m_player_names m)
     (request_command (ask "opponent_name")) =
     Some {[ "opponent_name" := VName "WhiteBot" ]}) /\
  served BLACK (ask "opponent_name") m []
    (Some {[ "opponent_name" := VName "WhiteBot" ]}) (poll BLACK m) /\
  m_game (final (poll BLACK m)) = game_in 1.
Proof.
  cbv zeta. split; [by split|].
  exact (plain_command_answered (H:=types) (G:=game) (E:=script)
           BLACK (ask "opponent_name")
           (moderator_in (game_in 1) [] [ask "opponent_name"])
           {[ "opponent_name" := VName "WhiteBot" ]} eq_refl eq_refl).
Defined.

(** X10 at work: it is White's turn and Black asks to end the turn. *)
Lemma off_turn_request_witness :
  let m := moderator_in (game_in 1) [] [ask "end_turn"] in
  (pending BLACK (ask "end_turn") m /\ turn (m_game m) ≠ BLACK) /\
  Forall (fun e => call_of e ∉ turn_only_calls) (trace (poll BLACK m)).
Proof.
  cbv zeta.
  assert (turn (m_game (moderator_in (game_in 1) [] [ask "end_turn"]))
            ≠ BLACK) as Hturn.
  { discriminate. }
  split; [split; [reflexivity|exact Hturn]|].
  exact (off_turn_request_never_acts (H:=types) (G:=game) (E:=script)
           BLACK (ask "end_turn")
           (moderator_in (game_in 1) [] [ask "end_turn"]) eq_refl Hturn).
Defined.

(** X13 at work: the short game. *)
Lemma moderator_starts_and_ends_once_witness :
  let r := play_multiprocessing_local_game 10 "W" "B" (Some (game_in 1)) 900
             short_game in
  result r = Returned (Some WHITE, Some "king capture", []) /\
  times_called c_store_players (trace r) = 1 /\
  times_called c_process_start (trace r) = 2 /\
  times_called c_start (trace r) = 1 /\
  times_called c_end (trace r) = 1.
Proof.
  cbv zeta.
  assert (result (play_multiprocessing_local_game 10 "W" "B"
                    (Some (game_in 1)) 900 short_game) =
          Returned (Some WHITE, Some "king capture", [])) as Hres.
  { by vm_compute. }
  split; [exact Hres|].
  exact (moderator_starts_and_ends_once (H:=types) (G:=game) (E:=script)
           (C:=string) 10 "W" "B" (Some (game_in 1)) 900 short_game _ Hres).
Defined.

(** X15 at work: White ends its turn while Black asks for its move
    actions. *)
Lemma white_end_turn_witness :
  let m := moderator_in (game_in 2) [ask "end_turn"] [ask "move_actions"] in
  let r := _respond_to_requests m in
  (pending WHITE (ask "end_turn") m /\
   pending BLACK (ask "move_actions") m /\
   request_command (ask "end_turn") = "end_turn" /\
   turn (m_game m) = WHITE /\
   turn (end_turn (m_game m)) = BLACK /\
   on_turn (ask "move_actions") (end_turn (m_game m)) =
     Some (G_move_actions [10; 11], VMoves [10; 11], end_turn (game_in 2))) /\
  result r = Returned tt /\
  trace r =
    [Q_empty WHITE false; Q_get WHITE (ask "end_turn"); G_end_turn;
     Q_put WHITE (Some {[ "end_turn" := VStr "done" ]});
     Q_empty BLACK false; Q_get BLACK (ask "move_actions");
     G_move_actions [10; 11];
     Q_put BLACK (Some {[ "move_actions" := VMoves [10; 11] ]})] /\
  m_game (final r) = end_turn (game_in 2).
Proof.
  cbv zeta. split; [by repeat split|].
  exact (white_end_turn_lets_black_in (H:=types) (G:=game) (E:=script)
           (ask "end_turn") (ask "move_actions")
           (moderator_in (game_in 2) [ask "end_turn"] [ask "move_actions"])
           (G_move_actions [10; 11]) (VMoves [10; 11]) (end_turn (game_in 2))
           eq_refl eq_refl eq_refl eq_refl eq_refl eq_refl).
Defined.

(** X16 at work: Black ends its turn while White asks for its sense
    actions. *)
Lemma black_end_turn_witness :
  let g := Game' BLACK 2 (fun _ => 900) [] in
  let m := moderator_in g [ask "sense_actions"] [ask "end_turn"] in
  let r := _respond_to_requests m in
  (pending WHITE (ask "sense_actions") m /\
   pending BLACK (ask "end_turn") m /\
   request_command (ask "sense_actions") ∈ gated_commands /\
   request_command (ask "end_turn") = "end_turn" /\
   turn (m_game m) = BLACK) /\
  result r = Returned tt /\
  trace r =
    [Q_empty WHITE false; Q_get WHITE (ask "sense_actions");
     Q_put WHITE (Some {[ "sense_actions" := VNone ]});
     Q_empty BLACK false; Q_get BLACK (ask "end_turn"); G_end_turn;
     Q_put BLACK (Some {[ "end_turn" := VStr "done" ]})] /\
  m_game (final r) = end_turn g.
Proof.
  cbv zeta.
  assert (request_command (ask "sense_actions") ∈ gated_commands) as Hgated.
  { by apply (bool_decide_unpack _). }
  split; [by repeat split|].
  exact (black_end_turn_keeps_white_out (H:=types) (G:=game) (E:=script)
           (ask "sense_actions") (ask "end_turn")
           (moderator_in (Game' BLACK 2 (fun _ => 900) [])
              [ask "sense_actions"] [ask "end_turn"])
           eq_refl eq_refl Hgated eq_refl eq_refl).
Defined.
